(** * Leased log shipping: the lease Manager, its gated writers and its
      slog handler

    A shallow embedding of [internal/lease/manager.go] and of the slog
    handler of the same package ([slogger]).

    Conventions.
    - [time.Time] and [time.Duration] are integers (nanoseconds) in [Z];
      [Before] and [After] are the strict orders.  Durations are taken
      without the saturation of [time.Time.Sub].
    - The Manager is one shared object; the writers and the handler hold a
      pointer to it, so their operations read the Manager they are given.
    - What lies outside the process (the clock, the runtime's timers, the
      standard streams, the Cloud Logging sink) is the [World].
    - The backing arrays of the handler's slices live in a [Mem], so that
      aliasing between a handler and the handlers derived from it is
      visible. *)

From Stdlib Require Import ZArith Lia Bool.
From stdpp Require Import base list strings gmap.

Local Open Scope Z_scope.

(** Go's [[]byte]. *)
Definition bytes := list Byte.byte.

(** ** Time *)

Definition Time := Z.
Definition Duration := Z.

Definition Before (t u : Time) : bool := t <? u.
Definition After (t u : Time) : bool := u <? t.
Definition Sub (t u : Time) : Duration := t - u.

(** ** Errors and byte streams *)

Inductive error :=
| ErrShortWrite      (* io.ErrShortWrite *)
| ErrFile            (* a failed write on a file descriptor *)
| ErrSnapshot.       (* a failure of the snapshot iterator *)

(** [os.File]: the bytes accepted so far and, when the descriptor cannot
    take everything (closed, full, broken pipe), how many more bytes it
    accepts. *)
Record Stream := mkStream {
  data : bytes;
  room : option nat
}.

(** [os.File.Write]: a short count always comes with an error. *)
Definition fileWrite (p : bytes) (s : Stream) : (nat * option error) * Stream :=
  match room s with
  | None => ((length p, None), mkStream (data s ++ p) None)
  | Some k =>
      if (length p <=? k)%nat
      then ((length p, None), mkStream (data s ++ p) (Some (k - length p)%nat))
      else ((k, Some ErrFile), mkStream (data s ++ take k p) (Some 0%nat))
  end.

(** The stream takes the whole of [p]. *)
Definition accepts (s : Stream) (p : bytes) : bool :=
  match room s with
  | None => true
  | Some k => (length p <=? k)%nat
  end.

(** ** The Cloud Logging sink *)

Inductive Severity := Default | Debug | Info | Warning | Error.

(** [logging.Entry], as handed to [Logger.Log]. *)
Record Entry := mkEntry {
  Timestamp : Time;
  EntrySeverity : Severity;
  Payload : string;
  Labels : gmap string string
}.

(** The diagnostics printed on stderr with [fmt.Fprintln] and
    [fmt.Fprintf]; the code ignores the results of these prints. *)
Inductive Diag :=
| DiagLeaseExpired
| DiagWatchLease
| DiagSnapshotFailed
| DiagParseFailed
| DiagLeaseExtended (remaining : Duration) (user reason : string).

(** ** The runtime's timers *)

Inductive TimerStatus :=
| Pending      (* armed, not yet expired *)
| Stopped      (* [Stop] came first *)
| Running      (* expired: [f] was started in its own goroutine *)
| Finished.    (* [f] returned *)

(** A timer made by [time.AfterFunc]: its channel [C] is nil. *)
Record Timer := mkTimer {
  when : Time;
  status : TimerStatus;
  C : option (list Time)
}.

Record World := mkWorld {
  clock : Time;
  timers : list Timer;
  stdout : Stream;
  stderr : list Diag;
  remote : list Entry
}.

Definition set_timers (ts : list Timer) (w : World) : World :=
  mkWorld (clock w) ts (stdout w) (stderr w) (remote w).
Definition set_clock (t : Time) (w : World) : World :=
  mkWorld t (timers w) (stdout w) (stderr w) (remote w).
Definition set_stdout (s : Stream) (w : World) : World :=
  mkWorld (clock w) (timers w) s (stderr w) (remote w).
Definition set_remote (r : list Entry) (w : World) : World :=
  mkWorld (clock w) (timers w) (stdout w) (stderr w) r.
Definition Fprint (d : Diag) (w : World) : World :=
  mkWorld (clock w) (timers w) (stdout w) (stderr w ++ [d]) (remote w).

(** [time.Now().UTC()] *)
Definition Now (w : World) : Time := clock w.
(** [time.Until(t)] *)
Definition Until (t : Time) (w : World) : Duration := Sub t (Now w).

(** [time.AfterFunc(d, f)]: the only [f] of this program prints
    "=== LEASE EXPIRED" and disables the lease, see [expired]. *)
Definition AfterFunc (d : Duration) (w : World) : nat * World :=
  (length (timers w), set_timers (timers w ++ [mkTimer (Now w + d) Pending None]) w).

(** [Timer.Stop]: true when the call stops the timer, false when the timer
    has already expired or been stopped; it does not wait for [f]. *)
Definition Stop (id : nat) (w : World) : bool * World :=
  match timers w !! id with
  | Some t =>
      match status t with
      | Pending => (true, set_timers (<[id := mkTimer (when t) Stopped (C t)]> (timers w)) w)
      | _ => (false, w)
      end
  | None => (false, w)
  end.

(** [select { case <-t.C: default: }]: a receive from a nil channel is never
    ready, so the default branch runs. *)
Definition drain (id : nat) (w : World) : World :=
  match timers w !! id with
  | Some t =>
      match C t with
      | Some (_ :: rest) =>
          set_timers (<[id := mkTimer (when t) (status t) (Some rest)]> (timers w)) w
      | _ => w
      end
  | None => w
  end.

(** ** The Manager *)

Record Manager := mkManager {
  guaranteedUntil : Time;
  enabled : bool;
  expireTimer : option nat
}.

Definition enable (m : Manager) : Manager :=
  mkManager (guaranteedUntil m) true (expireTimer m).

Definition disable (m : Manager) : Manager :=
  mkManager (guaranteedUntil m) false (expireTimer m).

Definition set_expireTimer (id : nat) (m : Manager) : Manager :=
  mkManager (guaranteedUntil m) (enabled m) (Some id).

(** The expiration [expireAfter] works with: the candidate, raised to the
    guaranteed floor. *)
Definition effective (expire : Time) (m : Manager) : Time :=
  if Before expire (guaranteedUntil m) then guaranteedUntil m else expire.

(** "cancel the previous timer if it was unfired" *)
Definition cancelPrevious (m : Manager) (w : World) : World :=
  match expireTimer m with
  | Some id =>
      let '(stopped, w1) := Stop id w in
      if negb stopped then drain id w1 else w1
  | None => w
  end.

Definition expireAfter (expire : Time) (m : Manager) (w : World) : Manager * World :=
  let expire := effective expire m in
  let w := cancelPrevious m w in
  if Before expire (Now w) then
    (disable m, Fprint DiagLeaseExpired w)
  else
    let m := enable m in
    let '(id, w) := AfterFunc (Until expire w) w in
    (set_expireTimer id m, w).

(** The function given to [AfterFunc]. *)
Definition expired (m : Manager) (w : World) : Manager * World :=
  (disable m, Fprint DiagLeaseExpired w).

(** [NewManager], up to the start of the watcher goroutine. *)
Definition NewManager (guaranteedUntil : Time) (w : World) : Manager * World :=
  let lw := mkManager guaranteedUntil false None in
  if After guaranteedUntil (Now w) then expireAfter guaranteedUntil lw w
  else (lw, w).

(** ** The watcher *)

(** [lease.Document] *)
Record Document := mkDocument {
  ExpireAt : Time;
  User : string;
  Reason : string
}.

(** What [iter.Next] delivers to the loop of [watchLease]: a snapshot of a
    record that does not exist, of one that [DataTo] cannot parse, or of a
    lease. *)
Inductive Snapshot :=
| Absent
| Malformed
| Present (lease : Document).

(** [Duration.Round], for a positive unit and without overflow. *)
Definition Round (d m : Duration) : Duration :=
  if m <=? 0 then d
  else
    let r := Z.rem d m in
    if d <? 0 then
      let r := - r in
      if r + r <? m then d + r else d - m + r
    else
      if r + r <? m then d - r else d + m - r.

Definition Millisecond : Duration := 1000000.

(** One turn of the loop of [watchLease], after a snapshot was received. *)
Definition watchStep (s : Snapshot) (m : Manager) (w : World) : Manager * World :=
  match s with
  | Absent => expireAfter (guaranteedUntil m) m w
  | Malformed => (m, Fprint DiagParseFailed w)
  | Present lease =>
      let '(m, w) := expireAfter (ExpireAt lease) m w in
      if After (ExpireAt lease) (guaranteedUntil m) then
        (m, Fprint (DiagLeaseExtended (Round (Until (ExpireAt lease) w) (Millisecond * 100))
                      (User lease) (Reason lease)) w)
      else (m, w)
  end.

(** What [iter.Next] returns. *)
Inductive IterResult :=
| IterSnapshot (s : Snapshot)
| IterEOF
| IterDeadlineExceeded
| IterCanceled
| IterFailed.

(** The loop of [watchLease] over the results that the iterator delivers;
    when they run out, [Next] is still waiting and nothing is returned
    yet. *)
Fixpoint watchLoop (results : list IterResult) (m : Manager) (w : World)
  : option (option error) * (Manager * World) :=
  match results with
  | [] => (None, (m, w))
  | IterSnapshot s :: rest =>
      let '(m, w) := watchStep s m w in watchLoop rest m w
  | IterFailed :: _ => (Some (Some ErrSnapshot), (m, Fprint DiagSnapshotFailed w))
  | _ :: _ => (Some None, (m, w))
  end.

Definition watchLease (results : list IterResult) (m : Manager) (w : World)
  : option (option error) * (Manager * World) :=
  watchLoop results m (Fprint DiagWatchLease w).

(** ** Executions

    The Manager's state changes through the calls of [expireAfter] (direct,
    or made by the watcher for a snapshot) and through the runtime, which
    lets time pass, starts the function of an expired timer in a goroutine
    of its own, and later runs that goroutine. *)
Inductive Event :=
| Tick (d : nat)
| ExpireAfter (expire : Time)
| Notify (s : Snapshot)
| TimerExpires (id : nat)
| CallbackRuns (id : nat).

Definition set_status (id : nat) (st : TimerStatus) (w : World) : World :=
  match timers w !! id with
  | Some t => set_timers (<[id := mkTimer (when t) st (C t)]> (timers w)) w
  | None => w
  end.

Definition status_of (id : nat) (w : World) : option TimerStatus :=
  status <$> timers w !! id.

Definition step (e : Event) (s : Manager * World) : option (Manager * World) :=
  let '(m, w) := s in
  match e with
  | Tick d => Some (m, set_clock (clock w + Z.of_nat d) w)
  | ExpireAfter expire => Some (expireAfter expire m w)
  | Notify sn => Some (watchStep sn m w)
  | TimerExpires id =>
      match timers w !! id with
      | Some t =>
          match status t with
          | Pending =>
              if when t <=? Now w then Some (m, set_status id Running w) else None
          | _ => None
          end
      | None => None
      end
  | CallbackRuns id =>
      match status_of id w with
      | Some Running =>
          let '(m, w) := expired m w in
          Some (m, set_status id Finished w)
      | _ => None
      end
  end.

Fixpoint run (tr : list Event) (s : Manager * World) : option (Manager * World) :=
  match tr with
  | [] => Some s
  | e :: tr =>
      match step e s with
      | Some s' => run tr s'
      | None => None
      end
  end.

(** A process that starts at time [t0] with no timer armed. *)
Definition startWorld (t0 : Time) (out : Stream) : World :=
  mkWorld t0 [] out [] [].

(** ** Writers *)

(** An [io.Writer] of this program: it acts on the world and returns the
    count and the error of [Write]. *)
Definition Writer := bytes → World → (nat * option error) * World.

(** [os.Stdout] *)
Definition osStdout : Writer := fun p w =>
  let '(r, s) := fileWrite p (stdout w) in (r, set_stdout s w).

(** [Logger.Log]: the entry is queued for the sink; nothing is returned. *)
Definition Log (e : Entry) (w : World) : World :=
  set_remote (remote w ++ [e]) w.

(** The entry that [Logger.StandardLogger(sev).Writer()] makes of a
    buffer. *)
Definition rawEntry (sev : Severity) (p : bytes) : Entry :=
  mkEntry 0 sev (String.string_of_list_byte p) ∅.

(** [Logger.StandardLogger(sev).Writer()]: logs the buffer as one entry and
    reports it written in full. *)
Definition severityWriter (sev : Severity) : Writer := fun p w =>
  ((length p, None), Log (rawEntry sev p) w).

(** [io.MultiWriter]: the writers are served in order; the first error or
    short count ends the write. *)
Fixpoint MultiWriter (writers : list Writer) : Writer := fun p w =>
  match writers with
  | [] => ((length p, None), w)
  | wr :: rest =>
      let '((n, err), w') := wr p w in
      match err with
      | Some _ => ((n, err), w')
      | None =>
          if (n =? length p)%nat then MultiWriter rest p w'
          else ((n, Some ErrShortWrite), w')
      end
  end.

(** [Manager.Write] *)
Definition Manager_Write (p : bytes) (m : Manager) (w : World)
  : (nat * option error) * World :=
  if enabled m then severityWriter Info p w
  else ((length p, None), w).

Record toggleableWriter := mkToggleableWriter {
  upstream : Writer;
  fallback : option Writer
}.

(** [toggleableWriter.Write]; [m] is the Manager behind [tw.leaser]. *)
Definition toggleableWriter_Write (tw : toggleableWriter) (p : bytes)
    (m : Manager) (w : World) : (nat * option error) * World :=
  if enabled m then upstream tw p w
  else
    match fallback tw with
    | Some f => f p w
    | None => ((length p, None), w)
    end.

(** [Manager.StdoutWriter] *)
Definition StdoutWriter : toggleableWriter :=
  let log := severityWriter Info in
  mkToggleableWriter (MultiWriter [osStdout; log]) (Some osStdout).

(** ** slog records *)

Definition Level := Z.
Definition LevelDebug : Level := -4.
Definition LevelInfo : Level := 0.
Definition LevelWarn : Level := 4.
Definition LevelError : Level := 8.

(** A [slog.Value], by the two things the code and [AddAttrs] ask of it:
    its rendering with [String] and whether it is a group without
    attributes. *)
Record Value := mkValue {
  ValueString : string;
  isEmptyGroup : bool
}.

Record Attr := mkAttr {
  Key : string;
  Val : Value
}.

#[global] Instance Attr_inhabited : Inhabited Attr :=
  populate (mkAttr EmptyString (mkValue EmptyString false)).

(** [slog.Record] *)
Record LogRecord := mkLogRecord {
  recTime : Time;
  recMessage : string;
  recLevel : Level;
  recAttrs : list Attr
}.

(** [Record.AddAttrs]: appends the attributes, leaving out empty groups. *)
Definition AddAttrs (r : LogRecord) (attrs : list Attr) : LogRecord :=
  mkLogRecord (recTime r) (recMessage r) (recLevel r)
    (recAttrs r ++ List.filter (fun a => negb (isEmptyGroup (Val a))) attrs).

(** The map that the callback given to [r.Attrs] fills: a later attribute
    replaces an earlier one of the same key. *)
Definition addLabel (labels : gmap string string) (a : Attr) : gmap string string :=
  <[Key a := ValueString (Val a)]> labels.

Definition labelsOf (r : LogRecord) : gmap string string :=
  foldl addLabel ∅ (recAttrs r).

Definition getSeverity (l : Level) : Severity :=
  if l =? LevelDebug then Debug
  else if l =? LevelInfo then Info
  else if l =? LevelWarn then Warning
  else if l =? LevelError then Error
  else Default.

(** The part of a [slog.Handler] that [slogger] uses: [Handle]. *)
Definition Handler := LogRecord → World → option error * World.

(** [slog.NewTextHandler(os.Stdout, nil)]: one formatted line per record,
    written to stdout; the error of that write is the handler's. *)
Definition TextHandler (format : LogRecord → bytes) : Handler := fun r w =>
  let '((_, err), w') := osStdout (format r) w in (err, w').

(** ** Slices and their backing arrays *)

Record slice := mkSlice {
  ptr : option nat;
  off : nat;
  len : nat;
  cap : nat
}.

Definition nilSlice : slice := mkSlice None 0 0 0.

(** The arrays allocated so far, and the capacity the allocator gives when a
    slice of capacity [old] must grow to hold [n] elements (never less than
    [n], see [append]). *)
Record Heap (A : Type) := mkHeap {
  arrays : list (list A);
  growcap : nat → nat → nat
}.
Arguments mkHeap {A} _ _.
Arguments arrays {A} _.
Arguments growcap {A} _ _ _.

Section Slices.
Context {A : Type} `{Inhabited A}.

Definition read (h : Heap A) (s : slice) : list A :=
  match ptr s with
  | Some p => take (len s) (drop (off s) (default [] (arrays h !! p)))
  | None => []
  end.

(** [s[:0:0]] *)
Definition reslice00 (s : slice) : slice := mkSlice (ptr s) (off s) 0 0.

(** Stores [xs] from index [i] of array [p]. *)
Definition write (h : Heap A) (p i : nat) (xs : list A) : Heap A :=
  mkHeap (alter (fun a => take i a ++ xs ++ drop (i + length xs) a) p (arrays h))
         (growcap h).

Definition alloc (h : Heap A) (a : list A) : nat * Heap A :=
  (length (arrays h), mkHeap (arrays h ++ [a]) (growcap h)).

(** [append(s, xs...)]: in place when the capacity allows, else into a new
    array that receives the old elements first. *)
Definition append (h : Heap A) (s : slice) (xs : list A) : slice * Heap A :=
  match xs with
  | [] => (s, h)
  | _ =>
      let n := (len s + length xs)%nat in
      if (n <=? cap s)%nat then
        match ptr s with
        | Some p => (mkSlice (ptr s) (off s) n (cap s), write h p (off s + len s) xs)
        | None => (s, h)
        end
      else
        let c := Nat.max n (growcap h (cap s) n) in
        let '(p, h') := alloc h (read h s ++ xs ++ replicate (c - n) inhabitant) in
        (mkSlice (Some p) 0 n c, h')
  end.

(** [slices.Clone(s)], that is [append(s[:0:0], s...)] *)
Definition Clone (h : Heap A) (s : slice) : slice * Heap A :=
  append h (reslice00 s) (read h s).

(** The array of the slice has been allocated (a nil slice has none). *)
Definition valid (h : Heap A) (s : slice) : Prop :=
  match ptr s with
  | Some p => (p < length (arrays h))%nat
  | None => True
  end.

(** [h'] extends [h]: the arrays of [h] are all there, unchanged. *)
Definition extends (h h' : Heap A) : Prop :=
  ∀ q, (q < length (arrays h))%nat → arrays h' !! q = arrays h !! q.
End Slices.

(** ** The handler *)

Record Mem := mkMem {
  attrMem : Heap Attr;
  groupMem : Heap string
}.

(** [slogger]; its [logger] is the sink of the world and its [lw] the
    Manager. *)
Record slogger := mkSlogger {
  stdoutLogger : Handler;
  attrs : slice;
  groups : slice
}.

(** [Manager.SlogLogger] *)
Definition SlogLogger (format : LogRecord → bytes) : slogger :=
  mkSlogger (TextHandler format) nilSlice nilSlice.

(** The record as it stands after [r.AddAttrs(s.attrs...)]. *)
Definition handled (s : slogger) (mem : Mem) (r : LogRecord) : LogRecord :=
  AddAttrs r (read (attrMem mem) (attrs s)).

(** The entry that [Handle] gives to [Logger.Log]. *)
Definition slogEntry (r : LogRecord) : Entry :=
  mkEntry (recTime r) (getSeverity (recLevel r)) (recMessage r) (labelsOf r).

(** [slogger.Handle] *)
Definition Handle (s : slogger) (r : LogRecord) (mem : Mem) (m : Manager) (w : World)
  : option error * World :=
  let r := handled s mem r in
  let labels := labelsOf r in
  match stdoutLogger s r w with
  | (Some err, w) => (Some err, w)
  | (None, w) =>
      if negb (enabled m) && (recLevel r <? LevelError) then (None, w)
      else
        (None, Log (mkEntry (recTime r) (getSeverity (recLevel r)) (recMessage r) labels) w)
  end.

(** [slogger.WithAttrs] *)
Definition WithAttrs (s : slogger) (extra : list Attr) (mem : Mem) : slogger * Mem :=
  let '(c_attrs, h) := Clone (attrMem mem) (attrs s) in
  let '(c_attrs, h) := append h c_attrs extra in
  (mkSlogger (stdoutLogger s) c_attrs (groups s), mkMem h (groupMem mem)).

(** [slogger.WithGroup] *)
Definition WithGroup (s : slogger) (g : string) (mem : Mem) : slogger * Mem :=
  let '(c_groups, h) := Clone (groupMem mem) (groups s) in
  let '(c_groups, h) := append h c_groups [g] in
  (mkSlogger (stdoutLogger s) (attrs s) c_groups, mkMem (attrMem mem) h).

(** A derivation made from some handler. *)
Inductive Derivation :=
| DeriveAttrs (s : slogger) (extra : list Attr)
| DeriveGroup (s : slogger) (g : string).

Definition derive (mem : Mem) (d : Derivation) : Mem :=
  match d with
  | DeriveAttrs s extra => snd (WithAttrs s extra mem)
  | DeriveGroup s g => snd (WithGroup s g mem)
  end.

(** ** The properties under study, as the specification words them *)

(** "after [expireAfter(c)], the resulting enabled state equals
    [(max(c, guaranteedUntil) > now)]" *)
Definition strict_floor_claim (c : Time) (m : Manager) (w : World) : Prop :=
  enabled (fst (expireAfter c m w)) = (Now w <? Z.max c (guaranteedUntil m)).

(** A call of [expireAfter] with a candidate below the floor [g]. *)
Definition below_floor (g : Time) (e : Event) : Prop :=
  match e with
  | ExpireAfter c => c < g
  | Notify (Present lease) => ExpireAt lease < g
  | _ => True
  end.


(** "No forwarding does not error - the call still reports success for the
    full buffer length" *)
Definition disabled_write_claim (p : bytes) (m : Manager) (w : World) : Prop :=
  enabled m = false →
  fst (toggleableWriter_Write StdoutWriter p m w) = (length p, None).

(** [Handle] gave the record to [Logger.Log]. *)
Definition shipped (s : slogger) (r : LogRecord) (mem : Mem) (m : Manager) (w : World)
  : Prop :=
  remote (snd (Handle s r mem m w)) =
  remote (snd (stdoutLogger s (handled s mem r) w)) ++ [slogEntry (handled s mem r)].

(** "a record at error severity is shipped to the remote sink even when
    [enabled == false]; a record below error severity is shipped iff
    [enabled == true]" *)
Definition severity_override_claim (s : slogger) (r : LogRecord) (mem : Mem)
    (m : Manager) (w : World) : Prop :=
  shipped s r mem m w ↔ (enabled m = true ∨ LevelError ≤ recLevel r).

(** The invariant of the guaranteed floor [g]: every timer is due at [g] or
    later, a timer function runs only once [g] is reached, and the lease is
    enabled as long as [g] lies ahead. *)
Definition timer_ok (g now : Time) (t : Timer) : Prop :=
  g ≤ when t ∧ (status t = Running → g ≤ now).

Definition floor_inv (g : Time) (s : Manager * World) : Prop :=
  guaranteedUntil (fst s) = g ∧
  Forall (timer_ok g (clock (snd s))) (timers (snd s)) ∧
  (clock (snd s) < g → enabled (fst s) = true).

(** ** Concrete executions *)

Definition openStream : Stream := mkStream [] None.
Definition closedStream : Stream := mkStream [] (Some 0%nat).

(** Floor 10, start at 0; candidates 3, 2 and 1 arrive while time passes. *)
Definition below_trace : list Event :=
  [ExpireAfter 3; Tick 4; Notify (Present (mkDocument 2 "ann" "debug")); Tick 3;
   ExpireAfter 1].

Definition below_end : Manager * World :=
  Eval vm_compute in
    default (mkManager 0 false None, startWorld 0 openStream)
            (run below_trace (NewManager 10 (startWorld 0 openStream))).

(** Floor 10, start at 0: the first timer expires at 10 and its function is
    started; before that goroutine runs, the lease is extended to 100. *)
Definition stale_trace : list Event :=
  [Tick 10; TimerExpires 0; ExpireAfter 100; CallbackRuns 0].

(** Floor 10, start at 0; at time 4 the record is found absent. *)
Definition absent_state : Manager * World :=
  Eval vm_compute in
    default (mkManager 0 false None, startWorld 0 openStream)
            (run [Tick 4] (NewManager 10 (startWorld 0 openStream))).

(** A one-byte buffer, a disabled and an enabled Manager. *)
Definition oneByte : bytes := [Byte.x61].
Definition managerOff : Manager := mkManager 0 false None.
Definition managerOn : Manager := mkManager 0 true None.

(** A handler as [SlogLogger] builds it, printing the message of the record,
    and a record at error level. *)
Definition messageFormat (r : LogRecord) : bytes :=
  String.list_byte_of_string (recMessage r).
Definition plainHandler : slogger := SlogLogger messageFormat.
Definition emptyMem : Mem := mkMem (mkHeap [] (fun _ n => n)) (mkHeap [] (fun _ n => n)).
Definition errorRecord : LogRecord :=
  mkLogRecord 7 "disk full" LevelError [mkAttr "node" (mkValue "a1" false)].

(** A handler whose attribute slice has one element and room for two more,
    and whose group slice is full. *)
Definition nodeAttr : Attr := mkAttr "node" (mkValue "a1" false).
Definition zoneAttr : Attr := mkAttr "zone" (mkValue "west" false).
Definition parentMem : Mem :=
  mkMem (mkHeap [[nodeAttr; inhabitant; inhabitant]] (fun old n => (2 * old)%nat))
        (mkHeap [["http"]] (fun old n => (2 * old)%nat)).
Definition parentHandler : slogger :=
  mkSlogger (TextHandler messageFormat) (mkSlice (Some 0%nat) 0 1 3) (mkSlice (Some 0%nat) 0 1 1).

(** ** The diagnostic writer, the logger of the demo and further
    vocabulary *)

(** [Manager.StderrWriter]; the world keeps of stderr only the diagnostics
    of the Manager, so [os.Stderr] as a byte stream is the writer
    [osStderr]. *)
Definition StderrWriter (osStderr : Writer) : Writer :=
  let log := severityWriter Error in
  MultiWriter [osStderr; log].

(** [slogger.Enabled] *)
Definition Enabled (s : slogger) (l : Level) : bool := true.

(** [slog.Logger.log] with the handler [s]: nothing happens when the handler
    is not enabled for the level; otherwise a record stamped with the
    current time and carrying the arguments is handled, and the error of
    the handler is dropped. *)
Definition loggerLog (s : slogger) (level : Level) (msg : string) (args : list Attr)
    (mem : Mem) (m : Manager) (w : World) : World :=
  if Enabled s level then
    snd (Handle s (AddAttrs (mkLogRecord (Now w) msg level []) args) mem m w)
  else w.

(** The three records of one turn of [generateLogs], made at time [t]. *)
Definition infoRecord (t : Time) : LogRecord :=
  mkLogRecord t "This is an info log." LevelInfo [mkAttr "string" (mkValue "value" false)].
Definition warnRecord (t : Time) : LogRecord :=
  mkLogRecord t "This is a warning log." LevelWarn [mkAttr "int" (mkValue "42" false)].
Definition errorDemoRecord (t : Time) : LogRecord :=
  mkLogRecord t "This is an error log." LevelError [mkAttr "float" (mkValue "3.14" false)].

(** One turn of the loop of [generateLogs]: [slog.Info], [slog.Warn] and
    [slog.Error] through the default logger, whose handler is [s]. *)
Definition generateLogsTurn (s : slogger) (mem : Mem) (m : Manager) (w : World) : World :=
  let w := loggerLog s LevelInfo "This is an info log."
             [mkAttr "string" (mkValue "value" false)] mem m w in
  let w := loggerLog s LevelWarn "This is a warning log."
             [mkAttr "int" (mkValue "42" false)] mem m w in
  loggerLog s LevelError "This is an error log."
    [mkAttr "float" (mkValue "3.14" false)] mem m w.

(** What ends the loop of [watchLease], and with which result. *)
Definition outcome (t : IterResult) : option (option error) :=
  match t with
  | IterSnapshot _ => None
  | IterFailed => Some (Some ErrSnapshot)
  | _ => Some None
  end.

(** The snapshots handled one after the other. *)
Definition watchSteps (ss : list Snapshot) (s : Manager * World) : Manager * World :=
  foldl (fun st sn => watchStep sn (fst st) (snd st)) s ss.

Definition notMalformed (t : IterResult) : bool :=
  match t with
  | IterSnapshot Malformed => false
  | _ => true
  end.

(** Two worlds that differ at most in what was printed on stderr. *)
Definition same_but_stderr (w1 w2 : World) : Prop :=
  clock w1 = clock w2 ∧ timers w1 = timers w2 ∧ stdout w1 = stdout w2 ∧
  remote w1 = remote w2.

(** Only the timer the Manager holds can be pending. *)
Definition single_pending (s : Manager * World) : Prop :=
  ∀ id t, timers (snd s) !! id = Some t → status t = Pending →
          expireTimer (fst s) = Some id.

(** An enabled lease has its disabling ahead: the timer the Manager holds is
    pending, or its function has been started and has not run yet. *)
Definition disable_scheduled (s : Manager * World) : Prop :=
  enabled (fst s) = true →
  ∃ id t, expireTimer (fst s) = Some id ∧ timers (snd s) !! id = Some t ∧
          (status t = Pending ∨ status t = Running).

(** The events that bring no news of the lease record. *)
Definition quiet (e : Event) : Prop :=
  match e with
  | Tick _ | TimerExpires _ | CallbackRuns _ | Notify Malformed => True
  | _ => False
  end.

(** The value shipped under a key: that of the last attribute with the
    key. *)
Definition lastWithKey (k : string) (l : list Attr) : option string :=
  (fun a => ValueString (Val a)) <$> last (List.filter (fun a => bool_decide (Key a = k)) l).

(** A stale lease: floor 5, expiry 8, seen at time 20. *)
Definition staleLease : Document := mkDocument 8 "ann" "debug".

(** The timers as a lease expiring at [e] needs them: a pending timer is
    due at [e] or later, and a timer function is in flight only once [e] is
    reached. *)
Definition timer_due (e now : Time) (t : Timer) : Prop :=
  (status t = Pending → e ≤ when t) ∧ (status t = Running → e ≤ now).

Definition holds_until (e : Time) (s : Manager * World) : Prop :=
  Forall (timer_due e (clock (snd s))) (timers (snd s)) ∧
  (clock (snd s) < e → enabled (fst s) = true).

(** A disabled Manager over which time passes and a malformed snapshot
    arrives. *)
Definition quiet_trace : list Event := [Tick 3; Notify Malformed].
Definition quiet_end : Manager * World :=
  Eval vm_compute in
    default (managerOff, startWorld 0 openStream)
            (run quiet_trace (managerOff, startWorld 0 openStream)).

(** Floor 10; at time 4 the lease is extended to 50, and the clock moves on
    to 24. *)
Definition extended_end : Manager * World :=
  Eval vm_compute in
    default (managerOff, startWorld 0 openStream)
            (run [Tick 20] (expireAfter 50 (fst absent_state) (snd absent_state))).

(** * Properties of [expireAfter] and of the timers *)

Lemma effective_max c m : effective c m = Z.max c (guaranteedUntil m).
Proof. unfold effective, Before. destruct (Z.ltb_spec c (guaranteedUntil m)); lia. Qed.


Lemma Stop_clock id w : clock (snd (Stop id w)) = clock w.
Proof.
  unfold Stop. destruct (timers w !! id) as [t|]; [|done].
  by destruct (status t).
Qed.

Lemma drain_clock id w : clock (drain id w) = clock w.
Proof.
  unfold drain. destruct (timers w !! id) as [t|]; [|done].
  by destruct (C t) as [[|? ?]|].
Qed.

Lemma cancelPrevious_clock m w : clock (cancelPrevious m w) = clock w.
Proof.
  unfold cancelPrevious. destruct (expireTimer m) as [id|]; [|done].
  pose proof (Stop_clock id w) as Hs. destruct (Stop id w) as [b w1]; simpl in Hs.
  destruct b; simpl; [done|]. by rewrite drain_clock.
Qed.

Lemma expireAfter_enabled c m w :
  enabled (fst (expireAfter c m w)) = negb (Before (effective c m) (Now w)).
Proof.
  unfold expireAfter, Now. rewrite cancelPrevious_clock.
  destruct (Before (effective c m) (clock w)); [done|].
  unfold AfterFunc. done.
Qed.

Lemma expireAfter_guaranteedUntil c m w :
  guaranteedUntil (fst (expireAfter c m w)) = guaranteedUntil m.
Proof.
  unfold expireAfter. destruct (Before _ _); [done|].
  unfold AfterFunc. done.
Qed.

(** When the lease is not yet past, a timer is armed for the effective
    expiration, with the duration left until then. *)
Lemma expireAfter_arms c m w :
  Before (effective c m) (Now w) = false →
  expireTimer (fst (expireAfter c m w)) = Some (length (timers (cancelPrevious m w))) ∧
  timers (snd (expireAfter c m w)) =
    timers (cancelPrevious m w) ++ [mkTimer (Now w + (effective c m - Now w)) Pending None].
Proof.
  intros Hb. unfold expireAfter. unfold Now in *. rewrite cancelPrevious_clock, Hb.
  unfold AfterFunc, Until, Sub, Now. simpl. by rewrite cancelPrevious_clock.
Qed.

(** C1, as amended: after [expireAfter(c)] the lease is enabled exactly when
    [max(c, guaranteedUntil)] is not before the current time, that is when
    [max(c, guaranteedUntil) >= now]; the comparison is [Before], so an
    effective expiration equal to the current time enables the lease and
    arms a timer of duration zero. *)
Theorem expireAfter_enabled_unless_past (c : Time) (m : Manager) (w : World) :
  enabled (fst (expireAfter c m w)) = (Now w <=? Z.max c (guaranteedUntil m)) ∧
  (if Z.max c (guaranteedUntil m) =? Now w
   then enabled (fst (expireAfter c m w)) = true ∧
        timers (snd (expireAfter c m w)) =
          timers (cancelPrevious m w) ++ [mkTimer (Now w + 0) Pending None]
   else True).
Proof.
  rewrite expireAfter_enabled, <- effective_max. unfold Before. split.
  - destruct (Z.ltb_spec (effective c m) (Now w)), (Z.leb_spec (Now w) (effective c m));
      simpl; try done; lia.
  - destruct (Z.eqb_spec (effective c m) (Now w)) as [He|]; [|done].
    assert (Hb : Before (effective c m) (Now w) = false).
    { unfold Before. apply Z.ltb_ge. lia. }
    split.
    + unfold Before in Hb. by rewrite Hb.
    + destruct (expireAfter_arms c m w Hb) as [_ ->]. rewrite He.
      by replace (Now w - Now w) with 0 by lia.
Qed.

(** C1, as the specification states it, fails when the effective expiration
    is the current time: floor 5, candidate 10, clock 10. *)
Lemma strict_floor_claim_fails_at_now :
  ¬ strict_floor_claim 10 (mkManager 5 false None) (startWorld 10 (mkStream [] None)).
Proof. unfold strict_floor_claim. vm_compute. discriminate. Qed.

(** ** The guaranteed floor is an invariant of every execution *)

Lemma timer_ok_mono g now now' t : now ≤ now' → timer_ok g now t → timer_ok g now' t.
Proof. unfold timer_ok. intros ? [? Hr]. split; [done|]. intros Hs. specialize (Hr Hs). lia. Qed.

Lemma Stop_timers_ok g now id w :
  Forall (timer_ok g now) (timers w) → Forall (timer_ok g now) (timers (snd (Stop id w))).
Proof.
  intros Hall. unfold Stop. destruct (timers w !! id) as [t|] eqn:Hl; [|done].
  destruct (status t) eqn:Hst; try done. simpl.
  apply Forall_insert; [done|].
  pose proof (Forall_lookup_1 _ _ _ _ Hall Hl) as [Hw _].
  split; simpl; [done | discriminate].
Qed.

Lemma drain_timers_ok g now id w :
  Forall (timer_ok g now) (timers w) → Forall (timer_ok g now) (timers (drain id w)).
Proof.
  intros Hall. unfold drain. destruct (timers w !! id) as [t|] eqn:Hl; [|done].
  destruct (C t) as [[|x rest]|]; try done. simpl.
  apply Forall_insert; [done|].
  pose proof (Forall_lookup_1 _ _ _ _ Hall Hl) as [Hw Hr].
  split; simpl; done.
Qed.

Lemma cancelPrevious_timers_ok g now m w :
  Forall (timer_ok g now) (timers w) →
  Forall (timer_ok g now) (timers (cancelPrevious m w)).
Proof.
  intros Hall. unfold cancelPrevious. destruct (expireTimer m) as [id|]; [|done].
  pose proof (Stop_timers_ok g now id w Hall) as Hs.
  destruct (Stop id w) as [b w1]; simpl in Hs.
  destruct b; simpl; [done|]. by apply drain_timers_ok.
Qed.

Lemma expireAfter_establishes g c m w :
  guaranteedUntil m = g → Forall (timer_ok g (clock w)) (timers w) →
  floor_inv g (expireAfter c m w).
Proof.
  intros Hg Hall.
  pose proof (cancelPrevious_timers_ok g (clock w) m w Hall) as Hc.
  pose proof (cancelPrevious_clock m w) as Hck.
  assert (Heff : g ≤ effective c m) by (rewrite effective_max; lia).
  unfold floor_inv, expireAfter, Now. rewrite Hck.
  destruct (Before (effective c m) (clock w)) eqn:Hb; simpl.
  - rewrite Hck. split_and!; [done .. |].
    unfold Before in Hb. apply Z.ltb_lt in Hb. lia.
  - unfold Until, Sub, Now. rewrite Hck. split_and!; [done | | done].
    apply Forall_app. split; [done|].
    apply Forall_singleton. split; simpl; [lia | discriminate].
Qed.

Lemma expireAfter_floor_inv g c m w :
  floor_inv g (m, w) → floor_inv g (expireAfter c m w).
Proof. intros (Hg & Hall & _). by apply expireAfter_establishes. Qed.

Lemma watchStep_floor_inv g sn m w :
  floor_inv g (m, w) → floor_inv g (watchStep sn m w).
Proof.
  intros Hinv. destruct sn as [| |lease]; simpl.
  - by apply expireAfter_floor_inv.
  - exact Hinv.
  - pose proof (expireAfter_floor_inv g (ExpireAt lease) m w Hinv) as Hi.
    destruct (expireAfter (ExpireAt lease) m w) as [m1 w1].
    destruct (After _ _); exact Hi.
Qed.

Lemma step_floor_inv g e s s' :
  floor_inv g s → step e s = Some s' → floor_inv g s'.
Proof.
  destruct s as [m w]. intros Hinv Hstep. destruct e as [d|c|sn|id|id]; simpl in Hstep.
  - inversion Hstep; subst; clear Hstep. destruct Hinv as (Hg & Hall & Hen). simpl in *.
    split_and!; simpl; [done | | intros; apply Hen; lia].
    eapply Forall_impl; [exact Hall|]. intros t. apply timer_ok_mono. lia.
  - inversion Hstep; subst. by apply expireAfter_floor_inv.
  - inversion Hstep; subst. by apply watchStep_floor_inv.
  - destruct (timers w !! id) as [t|] eqn:Hl; [|done].
    destruct (status t) eqn:Hst; try done.
    destruct (Z.leb_spec (when t) (Now w)) as [Hle|]; [|done].
    inversion Hstep; subst; clear Hstep. destruct Hinv as (Hg & Hall & Hen). simpl in *.
    unfold set_status. rewrite Hl. split_and!; simpl; [done | | done].
    apply Forall_insert; [done|].
    pose proof (Forall_lookup_1 _ _ _ _ Hall Hl) as [Hw _].
    split; simpl; [done|]. unfold Now in Hle. lia.
  - unfold status_of in Hstep. destruct (timers w !! id) as [t|] eqn:Hl; [|done].
    simpl in Hstep. destruct (status t) eqn:Hst; try done.
    inversion Hstep; subst; clear Hstep. destruct Hinv as (Hg & Hall & Hen). simpl in *.
    pose proof (Forall_lookup_1 _ _ _ _ Hall Hl) as [Hw Hr]. specialize (Hr Hst).
    unfold set_status. simpl. rewrite Hl. split_and!; simpl; [done | | lia].
    apply Forall_insert; [done|]. split; simpl; [done | discriminate].
Qed.

Lemma run_floor_inv g tr : ∀ s s',
  floor_inv g s → run tr s = Some s' → floor_inv g s'.
Proof.
  induction tr as [|e tr IH]; intros s s' Hinv Hrun; simpl in Hrun.
  - by inversion Hrun; subst.
  - destruct (step e s) as [s1|] eqn:Hstep; [|done].
    eapply IH; [|exact Hrun]. eapply step_floor_inv; eauto.
Qed.

Lemma NewManager_floor_inv g t0 out :
  floor_inv g (NewManager g (startWorld t0 out)).
Proof.
  unfold NewManager, After, Now. simpl.
  destruct (Z.ltb_spec t0 g).
  - apply expireAfter_establishes; simpl; [done | apply Forall_nil_2].
  - split_and!; simpl; [done | apply Forall_nil_2 | lia].
Qed.

(** Invariant I2 on every execution, whatever the candidates. *)
Lemma floor_holds_in_every_execution g t0 out tr m w :
  run tr (NewManager g (startWorld t0 out)) = Some (m, w) →
  guaranteedUntil m = g ∧ (Now w < g → enabled m = true).
Proof.
  intros Hrun.
  pose proof (run_floor_inv g tr _ _ (NewManager_floor_inv g t0 out) Hrun) as (Hg & _ & Hen).
  done.
Qed.

(** A single call with the floor still ahead enables the lease, from any
    state. *)
Lemma expireAfter_before_floor c m w :
  Now w < guaranteedUntil m → enabled (fst (expireAfter c m w)) = true.
Proof.
  intros Hlt. rewrite expireAfter_enabled, effective_max. unfold Before.
  apply negb_true_iff, Z.ltb_ge. lia.
Qed.

(** C2: [guaranteedUntil] keeps the value given at construction, and along
    an execution whose [expireAfter] calls all carry candidates below the
    floor (interleaved with the passing of time and the timers), the lease
    is enabled at every point reached while the current time is before
    [guaranteedUntil]: each such candidate is clamped to the floor, each
    such call enables, and no timer disables before the floor.  A prefix of
    such an execution is one too, so every intermediate state is covered. *)
Theorem floor_never_undercut (g t0 : Time) (out : Stream) (tr : list Event)
    (m : Manager) (w : World) :
  Forall (below_floor g) tr →
  run tr (NewManager g (startWorld t0 out)) = Some (m, w) →
  guaranteedUntil m = g ∧
  (Now w < g → enabled m = true) ∧
  (∀ c, c < g → effective c m = g) ∧
  (∀ c, c < g → Now w < g → enabled (fst (expireAfter c m w)) = true).
Proof.
  intros _ Hrun.
  destruct (floor_holds_in_every_execution g t0 out tr m w Hrun) as [Hg Hen].
  split_and!; [done | done | |].
  - intros c Hc. rewrite effective_max. lia.
  - intros c Hc Hnow. apply expireAfter_before_floor. lia.
Qed.

Lemma floor_never_undercut_witness :
  Forall (below_floor 10) below_trace ∧
  run below_trace (NewManager 10 (startWorld 0 openStream)) = Some below_end ∧
  guaranteedUntil (fst below_end) = 10 ∧
  (Now (snd below_end) < 10 → enabled (fst below_end) = true) ∧
  (∀ c, c < 10 → effective c (fst below_end) = 10) ∧
  (∀ c, c < 10 → Now (snd below_end) < 10 →
        enabled (fst (expireAfter c (fst below_end) (snd below_end))) = true).
Proof.
  assert (Hb : Forall (below_floor 10) below_trace).
  { unfold below_trace. repeat constructor; simpl; lia. }
  assert (Hr : run below_trace (NewManager 10 (startWorld 0 openStream)) = Some below_end).
  { vm_compute. reflexivity. }
  split; [exact Hb|]. split; [exact Hr|].
  exact (floor_never_undercut 10 0 openStream below_trace (fst below_end) (snd below_end)
           Hb Hr).
Defined.

(** ** Absence of the remote record *)

(** Once armed for [g], the timer disables the lease when [g] is reached. *)
Lemma armed_timer_disables_at_deadline g id m w :
  clock w ≤ g → timers w !! id = Some (mkTimer g Pending None) →
  ∃ m' w',
    run [Tick (Z.to_nat (g - clock w)); TimerExpires id; CallbackRuns id] (m, w)
      = Some (m', w') ∧
    enabled m' = false ∧ clock w' = g.
Proof.
  intros Hle Hl. simpl. rewrite Hl. simpl. unfold Now. simpl.
  replace (clock w + Z.of_nat (Z.to_nat (g - clock w))) with g by lia.
  rewrite Z.leb_refl. unfold status_of, set_status. simpl. rewrite Hl. simpl.
  unfold status_of. simpl.
  rewrite list_lookup_insert_eq by (by eapply lookup_lt_Some). simpl.
  eexists _, _. split; [reflexivity|]. split; [done|].
  unfold set_status. simpl.
  rewrite list_lookup_insert_eq by (by eapply lookup_lt_Some). done.
Qed.



(** ** Supersession of timers *)

Lemma status_of_set_timers_insert id id' t ts w :
  status_of id (set_timers (<[id' := t]> ts) w) =
  if decide (id' = id) then (if decide (id' < length ts)%nat then Some (status t) else None)
  else status <$> ts !! id.
Proof.
  unfold status_of. simpl. destruct (decide (id' = id)) as [->|Hne].
  - destruct (decide (id < length ts)%nat).
    + by rewrite list_lookup_insert_eq.
    + rewrite list_insert_ge by lia. by rewrite lookup_ge_None_2 by lia.
  - by rewrite list_lookup_insert_ne.
Qed.

Lemma Stop_keeps_stopped id id' w :
  status_of id w = Some Stopped → status_of id (snd (Stop id' w)) = Some Stopped.
Proof.
  intros Hs. unfold Stop. destruct (timers w !! id') as [t|] eqn:Hl; [|done].
  destruct (status t) eqn:Hst; try done. simpl.
  rewrite status_of_set_timers_insert. destruct (decide (id' = id)) as [->|]; [|done].
  unfold status_of in Hs. rewrite Hl in Hs. simpl in Hs. congruence.
Qed.

Lemma drain_keeps_status id id' w : status_of id (drain id' w) = status_of id w.
Proof.
  unfold drain. destruct (timers w !! id') as [t|] eqn:Hl; [|done].
  destruct (C t) as [[|x rest]|]; try done.
  rewrite status_of_set_timers_insert. destruct (decide (id' = id)) as [->|]; [|done].
  unfold status_of. rewrite Hl. simpl.
  rewrite decide_True; [done|]. by eapply lookup_lt_Some.
Qed.

(** A pending timer is stopped by the next call of [expireAfter]. *)
Lemma cancelPrevious_stops_pending m w id t :
  expireTimer m = Some id → timers w !! id = Some t → status t = Pending →
  status_of id (cancelPrevious m w) = Some Stopped.
Proof.
  intros Hm Hl Hp. unfold cancelPrevious, Stop. rewrite Hm, Hl, Hp. simpl.
  rewrite status_of_set_timers_insert, decide_True by done.
  rewrite decide_True; [done|]. by eapply lookup_lt_Some.
Qed.

Lemma cancelPrevious_keeps_stopped id m w :
  status_of id w = Some Stopped → status_of id (cancelPrevious m w) = Some Stopped.
Proof.
  intros Hs. unfold cancelPrevious. destruct (expireTimer m) as [id'|]; [|done].
  pose proof (Stop_keeps_stopped id id' w Hs) as Hk.
  destruct (Stop id' w) as [b w1]; simpl in Hk.
  destruct b; simpl; [done|]. by rewrite drain_keeps_status.
Qed.

Lemma expireAfter_after_cancel id c m w :
  status_of id (cancelPrevious m w) = Some Stopped →
  status_of id (snd (expireAfter c m w)) = Some Stopped.
Proof.
  intros Hs. unfold expireAfter. destruct (Before _ _); [done|].
  unfold AfterFunc, status_of in *. simpl.
  destruct (timers (cancelPrevious m w) !! id) as [t|] eqn:Hl; [|done].
  by rewrite (lookup_app_l_Some _ _ _ _ Hl).
Qed.

Lemma step_keeps_stopped e id m w m' w' :
  step e (m, w) = Some (m', w') →
  status_of id w = Some Stopped → status_of id w' = Some Stopped.
Proof.
  intros Hstep Hs. destruct e as [d|c|sn|id'|id']; simpl in Hstep.
  - by inversion Hstep; subst.
  - pose proof (expireAfter_after_cancel id c m w (cancelPrevious_keeps_stopped id m w Hs)) as Hk.
    injection Hstep as Heq. by rewrite Heq in Hk.
  - destruct sn as [| |lease]; simpl in Hstep.
    + pose proof (expireAfter_after_cancel id (guaranteedUntil m) m w
                    (cancelPrevious_keeps_stopped id m w Hs)) as Hk.
      injection Hstep as Heq. by rewrite Heq in Hk.
    + by inversion Hstep; subst.
    + pose proof (expireAfter_after_cancel id (ExpireAt lease) m w
                    (cancelPrevious_keeps_stopped id m w Hs)) as Hk.
      destruct (expireAfter (ExpireAt lease) m w) as [m1 w1]. simpl in Hk.
      destruct (After _ _); by inversion Hstep; subst.
  - destruct (timers w !! id') as [t|] eqn:Hl; [|done].
    destruct (status t) eqn:Hst; try done.
    destruct (when t <=? Now w); [|done]. inversion Hstep; subst; clear Hstep.
    unfold set_status. rewrite Hl. rewrite status_of_set_timers_insert.
    destruct (decide (id' = id)) as [->|]; [|done].
    unfold status_of in Hs. rewrite Hl in Hs. simpl in Hs. congruence.
  - destruct (status_of id' w) as [st|] eqn:Hso; [|done].
    destruct st; try done. inversion Hstep; subst; clear Hstep.
    unfold set_status. simpl.
    destruct (timers w !! id') as [t|] eqn:Hl; [|done].
    rewrite status_of_set_timers_insert.
    destruct (decide (id' = id)) as [->|]; [|done]. congruence.
Qed.

(** The part of timer supersession that holds: the function of a timer that
    was still pending when [expireAfter] was called again never runs, in any
    continuation. *)
Lemma superseded_pending_timer_never_runs tr : ∀ id m w m' w',
  status_of id w = Some Stopped →
  run tr (m, w) = Some (m', w') →
  status_of id w' = Some Stopped ∧ step (CallbackRuns id) (m', w') = None.
Proof.
  induction tr as [|e tr IH]; intros id m w m' w' Hs Hrun; cbn [run] in Hrun.
  - inversion Hrun; subst. split; [done|]. unfold step. rewrite Hs. reflexivity.
  - destruct (step e (m, w)) as [[m1 w1]|] eqn:Hstep; [|done].
    eapply IH; [|exact Hrun]. eapply step_keeps_stopped; eauto.
Qed.

(** C6 at the failing execution: the first timer (due at 10) has expired and
    its function has been started when [expireAfter(100)] is called; [Stop]
    returns false, the receive on the nil channel does nothing, the lease is
    enabled and a second timer is armed for 100; the function of the first
    timer then runs and disables the lease at time 10, with the second timer
    still pending. *)
Theorem stale_timer_disables_after_reenable :
  let s0 := NewManager 10 (startWorld 0 openStream) in
  (∃ m w, run (take 3 stale_trace) s0 = Some (m, w) ∧
          enabled m = true ∧ expireTimer m = Some 1%nat ∧
          timers w = [mkTimer 10 Running None; mkTimer 100 Pending None]) ∧
  (∃ m w, run stale_trace s0 = Some (m, w) ∧
          enabled m = false ∧ Now w = 10 ∧ expireTimer m = Some 1%nat ∧
          timers w = [mkTimer 10 Finished None; mkTimer 100 Pending None]).
Proof. split; eexists _, _; vm_compute; split_and!; reflexivity. Qed.

(** * Properties of the writers *)

Lemma fileWrite_accepts p s :
  accepts s p = true →
  fst (fileWrite p s) = (length p, None) ∧ data (snd (fileWrite p s)) = data s ++ p.
Proof.
  unfold accepts, fileWrite. destruct (room s) as [k|]; [|done].
  intros ->. done.
Qed.

Lemma fileWrite_refuses p s :
  accepts s p = false →
  fst (fileWrite p s) = (default 0%nat (room s), Some ErrFile).
Proof.
  unfold accepts, fileWrite. destruct (room s) as [k|]; [|done].
  intros ->. done.
Qed.

Lemma fileWrite_result p s :
  fst (fileWrite p s) =
  if accepts s p then (length p, None) else (default 0%nat (room s), Some ErrFile).
Proof.
  destruct (accepts s p) eqn:Ha.
  - by apply fileWrite_accepts.
  - by apply fileWrite_refuses.
Qed.

Lemma osStdout_spec p w :
  osStdout p w = (fst (fileWrite p (stdout w)), set_stdout (snd (fileWrite p (stdout w))) w).
Proof. unfold osStdout. by destruct (fileWrite p (stdout w)). Qed.

(** What [io.MultiWriter(os.Stdout, log)] does with a buffer. *)
Lemma upstream_spec sev p w :
  MultiWriter [osStdout; severityWriter sev] p w =
  if accepts (stdout w) p
  then ((length p, None), Log (rawEntry sev p) (snd (osStdout p w)))
  else osStdout p w.
Proof.
  cbn [MultiWriter]. rewrite osStdout_spec, fileWrite_result.
  destruct (accepts (stdout w) p); [|done].
  cbn. by rewrite !Nat.eqb_refl.
Qed.



(** C8, as amended: with the lease disabled, a write through the primary
    writer is the write to stdout (the fallback) and nothing else: nothing
    is forwarded, and the call returns what stdout returns, [(len(p), nil)]
    when stdout takes the whole buffer and the short count with the error of
    the stream otherwise. *)
Theorem disabled_write_returns_fallback (p : bytes) (m : Manager) (w : World) :
  enabled m = false →
  toggleableWriter_Write StdoutWriter p m w = osStdout p w ∧
  remote (snd (toggleableWriter_Write StdoutWriter p m w)) = remote w ∧
  fst (toggleableWriter_Write StdoutWriter p m w) =
    (if accepts (stdout w) p then (length p, None)
     else (default 0%nat (room (stdout w)), Some ErrFile)).
Proof.
  intros Hoff. unfold toggleableWriter_Write, StdoutWriter. cbn [upstream fallback].
  rewrite Hoff. rewrite osStdout_spec. cbn [fst snd]. split_and!; [done | done |].
  apply fileWrite_result.
Qed.

Lemma disabled_write_returns_fallback_witness :
  enabled managerOff = false ∧
  fst (toggleableWriter_Write StdoutWriter oneByte managerOff (startWorld 0 openStream))
    = (1%nat, None).
Proof.
  split; [reflexivity|].
  exact (proj2 (proj2 (disabled_write_returns_fallback oneByte managerOff
                         (startWorld 0 openStream) eq_refl))).
Defined.

(** C8, as the specification states it, fails when stdout refuses the
    write: the error of the fallback is returned. *)
Lemma disabled_write_claim_fails_on_closed_stdout :
  ¬ disabled_write_claim oneByte managerOff (startWorld 0 closedStream).
Proof.
  unfold disabled_write_claim. intros Hc. specialize (Hc eq_refl).
  vm_compute in Hc. discriminate.
Qed.

(** A toggleable writer without fallback discards the buffer and reports it
    written. *)
Lemma toggleableWriter_without_fallback up p m w :
  enabled m = false →
  toggleableWriter_Write (mkToggleableWriter up None) p m w = ((length p, None), w).
Proof. intros Hoff. unfold toggleableWriter_Write. by rewrite Hoff. Qed.

(** C9: [Manager.Write] never touches stdout or stderr; with the lease
    disabled it leaves the world as it is and returns [(len(p), nil)]; with
    the lease enabled its only effect is one entry in the remote sink. *)
Theorem Manager_Write_remote_only (p : bytes) (m : Manager) (w : World) :
  fst (Manager_Write p m w) = (length p, None) ∧
  stdout (snd (Manager_Write p m w)) = stdout w ∧
  stderr (snd (Manager_Write p m w)) = stderr w ∧
  snd (Manager_Write p m w) = (if enabled m then Log (rawEntry Info p) w else w) ∧
  remote (snd (Manager_Write p m w)) =
    (if enabled m then remote w ++ [rawEntry Info p] else remote w).
Proof. unfold Manager_Write. by destruct (enabled m). Qed.

(** * Properties of slices *)

Section SliceFacts.
Context {A : Type} `{Inhabited A}.
Implicit Types (h : Heap A) (s t : slice) (xs : list A).

Lemma extends_refl h : extends h h.
Proof. by intros q _. Qed.

Lemma extends_length h h' : extends h h' → (length (arrays h) ≤ length (arrays h'))%nat.
Proof.
  intros He. destruct (decide (length (arrays h) = 0)%nat) as [->|Hne]; [lia|].
  specialize (He (length (arrays h) - 1)%nat ltac:(lia)).
  destruct (lookup_lt_is_Some_2 (arrays h) (length (arrays h) - 1)%nat ltac:(lia)) as [a Ha].
  rewrite Ha in He. apply lookup_lt_Some in He. lia.
Qed.

Lemma extends_trans h1 h2 h3 : extends h1 h2 → extends h2 h3 → extends h1 h3.
Proof.
  intros H12 H23 q Hq. rewrite H23, H12; [done | done |].
  pose proof (extends_length _ _ H12). lia.
Qed.

Lemma read_extends h h' t : extends h h' → valid h t → read h' t = read h t.
Proof.
  unfold valid, read. intros He Hv. destruct (ptr t) as [q|]; [|done].
  by rewrite He.
Qed.

Lemma valid_extends h h' t : extends h h' → valid h t → valid h' t.
Proof.
  unfold valid. intros He Hv. destruct (ptr t) as [q|]; [|done].
  pose proof (extends_length _ _ He). lia.
Qed.

Lemma alloc_extends h a : extends h (snd (alloc h a)).
Proof. intros q Hq. simpl. by rewrite lookup_app_l. Qed.

Lemma read_alloc h a n c :
  read (snd (alloc h a)) (mkSlice (Some (fst (alloc h a))) 0 n c) = take n a.
Proof. unfold read. simpl. by rewrite list_lookup_middle. Qed.

Lemma append_nil h s : append h s [] = (s, h).
Proof. done. Qed.

(** An append that finds no room moves to a new array. *)
Lemma append_grows h s xs :
  xs ≠ [] → (cap s < len s + length xs)%nat →
  append h s xs =
    (mkSlice (Some (length (arrays h))) 0 (len s + length xs)
             (Nat.max (len s + length xs) (growcap h (cap s) (len s + length xs))),
     snd (alloc h (read h s ++ xs ++
                   replicate (Nat.max (len s + length xs)
                                      (growcap h (cap s) (len s + length xs))
                              - (len s + length xs)) inhabitant))).
Proof.
  intros Hne Hlt. unfold append. destruct xs as [|x xs]; [done|].
  destruct (Nat.leb_spec (len s + length (x :: xs)) (cap s)); [lia|]. done.
Qed.

(** An append that finds room stores the elements behind the slice. *)
Lemma append_in_place h s p xs :
  xs ≠ [] → ptr s = Some p → (len s + length xs ≤ cap s)%nat →
  append h s xs =
    (mkSlice (Some p) (off s) (len s + length xs) (cap s),
     write h p (off s + len s) xs).
Proof.
  intros Hne Hp Hle. unfold append. destruct xs as [|x xs]; [done|].
  destruct (Nat.leb_spec (len s + length (x :: xs)) (cap s)); [|lia]. by rewrite Hp.
Qed.

Lemma write_extends h p i xs k :
  (k ≤ p)%nat → ∀ q, (q < k)%nat → arrays (write h p i xs) !! q = arrays h !! q.
Proof. intros Hk q Hq. simpl. apply list_lookup_alter_ne. lia. Qed.

(** Cloning and then appending: the new slice reads as the old elements
    followed by the new ones, and every array that existed is unchanged. *)
Lemma read_reslice00 h s : read h (reslice00 s) = [].
Proof. unfold read, reslice00. simpl. by destruct (ptr s). Qed.

Lemma valid_alloc h a n c :
  valid (snd (alloc h a)) (mkSlice (Some (length (arrays h))) 0 n c).
Proof. unfold valid. simpl. rewrite length_app. simpl. lia. Qed.

Lemma Clone_append h s xs :
  extends h (snd (append (snd (Clone h s)) (fst (Clone h s)) xs)) ∧
  read (snd (append (snd (Clone h s)) (fst (Clone h s)) xs))
       (fst (append (snd (Clone h s)) (fst (Clone h s)) xs)) = read h s ++ xs ∧
  (valid h s →
   valid (snd (append (snd (Clone h s)) (fst (Clone h s)) xs))
         (fst (append (snd (Clone h s)) (fst (Clone h s)) xs))).
Proof.
  unfold Clone. destruct (decide (read h s = [])) as [Hl|Hl].
  - rewrite Hl, append_nil. cbn [fst snd app]. destruct (decide (xs = [])) as [->|Hx].
    + rewrite append_nil. split_and!; [apply extends_refl | apply read_reslice00 | done].
    + assert (0 < length xs)%nat by (destruct xs; [done | simpl; lia]).
      rewrite append_grows by first [done | cbn [cap len reslice00]; lia]. cbn [fst snd].
      split_and!; [apply alloc_extends | | intros _; apply valid_alloc].
      rewrite (read_alloc h), read_reslice00. cbn [len reslice00 app Nat.add].
      by rewrite take_app_length.
  - assert (0 < length (read h s))%nat by (destruct (read h s); [done | simpl; lia]).
    rewrite (append_grows h (reslice00 s) (read h s))
      by first [done | cbn [cap len reslice00]; lia].
    cbn [fst snd]. rewrite read_reslice00.
    cbn [len cap reslice00 Nat.add app].
    set (l := read h s) in *. set (n1 := length l).
    set (c1 := Nat.max n1 (growcap h 0 n1)).
    set (arr1 := l ++ replicate (c1 - n1) inhabitant).
    set (h1 := snd (alloc h arr1)).
    set (s1 := mkSlice (Some (length (arrays h))) 0 n1 c1).
    assert (Ht : take n1 arr1 = l).
    { unfold arr1, n1. by rewrite take_app_length. }
    assert (Hr1 : read h1 s1 = l).
    { unfold h1, s1. by rewrite (read_alloc h). }
    assert (He1 : extends h h1) by apply alloc_extends.
    assert (Hv1 : valid h1 s1) by apply valid_alloc.
    destruct (decide (xs = [])) as [->|Hx].
    + rewrite append_nil. cbn [fst snd]. split_and!; [done | | done].
      by rewrite Hr1, app_nil_r.
    + destruct (Nat.leb_spec (len s1 + length xs) (cap s1)) as [Hfit|Hgrow].
      * rewrite (append_in_place h1 s1 (length (arrays h))) by done.
        cbn [fst snd]. split_and!.
        { intros q Hq. rewrite <- He1 by done.
          apply write_extends with (k := length (arrays h)); done. }
        { unfold read, write. cbn [ptr off len s1 arrays]. rewrite list_lookup_alter_eq.
          unfold h1. cbn [alloc snd arrays].
          rewrite list_lookup_middle by done.
          cbn [fmap option_fmap option_map default drop].
          rewrite Nat.add_0_l, Ht, app_assoc.
          replace (n1 + length xs)%nat with (length (l ++ xs))
            by (rewrite length_app; done).
          unfold id. rewrite drop_0. by rewrite take_app_length. }
        { intros _. unfold valid, write. cbn [ptr arrays]. rewrite length_alter.
          exact Hv1. }
      * rewrite append_grows by done. cbn [fst snd]. split_and!.
        { eapply extends_trans; [exact He1 | apply alloc_extends]. }
        { rewrite (read_alloc h1), Hr1, app_assoc. cbn [len s1].
          replace (n1 + length xs)%nat with (length (l ++ xs))
            by (rewrite length_app; done).
          by rewrite take_app_length. }
        { intros _. apply valid_alloc. }
Qed.
End SliceFacts.

(** Appending to a slice with spare capacity writes into the shared array:
    a second append through the same slice overwrites what the first one
    stored.  This is what [slices.Clone] guards the derived handlers
    against. *)
Example append_shares_the_array :
  let h := attrMem parentMem in
  let s := attrs parentHandler in
  let '(s1, h1) := append h s [zoneAttr] in
  let '(s2, h2) := append h1 s [nodeAttr] in
  read h1 s1 = [nodeAttr; zoneAttr] ∧ read h2 s1 = [nodeAttr; nodeAttr].
Proof. vm_compute. done. Qed.

(** * Properties of the handler *)

Lemma WithAttrs_spec h extra mem :
  WithAttrs h extra mem =
  (mkSlogger (stdoutLogger h)
     (fst (append (snd (Clone (attrMem mem) (attrs h)))
                  (fst (Clone (attrMem mem) (attrs h))) extra))
     (groups h),
   mkMem (snd (append (snd (Clone (attrMem mem) (attrs h)))
                      (fst (Clone (attrMem mem) (attrs h))) extra))
         (groupMem mem)).
Proof.
  unfold WithAttrs. destruct (Clone (attrMem mem) (attrs h)) as [c1 h1]. cbn [fst snd].
  by destruct (append h1 c1 extra).
Qed.

Lemma WithGroup_spec h g mem :
  WithGroup h g mem =
  (mkSlogger (stdoutLogger h) (attrs h)
     (fst (append (snd (Clone (groupMem mem) (groups h)))
                  (fst (Clone (groupMem mem) (groups h))) [g])),
   mkMem (attrMem mem)
         (snd (append (snd (Clone (groupMem mem) (groups h)))
                      (fst (Clone (groupMem mem) (groups h))) [g]))).
Proof.
  unfold WithGroup. destruct (Clone (groupMem mem) (groups h)) as [c1 h1]. cbn [fst snd].
  by destruct (append h1 c1 [g]).
Qed.

(** [Handle], by the outcome of the local handler. *)
Lemma Handle_spec s r mem m w :
  Handle s r mem m w =
  match fst (stdoutLogger s (handled s mem r) w) with
  | Some err => (Some err, snd (stdoutLogger s (handled s mem r) w))
  | None =>
      if enabled m || (LevelError <=? recLevel r)
      then (None, Log (slogEntry (handled s mem r)) (snd (stdoutLogger s (handled s mem r) w)))
      else (None, snd (stdoutLogger s (handled s mem r) w))
  end.
Proof.
  unfold Handle. destruct (stdoutLogger s (handled s mem r) w) as [[err|] w1]; [done|].
  cbn [fst snd]. change (recLevel (handled s mem r)) with (recLevel r).
  destruct (enabled m); cbn [negb andb orb]; [done|].
  rewrite Z.leb_antisym. by destruct (recLevel r <? LevelError).
Qed.

(** C4, as amended: [Handle] first gives the record to the local handler and
    returns its error, if any, without shipping anything; when the local
    handler succeeded, the record is shipped to the remote sink exactly when
    the lease is enabled or the level of the record is [LevelError] or
    above. *)
Theorem Handle_ships_after_local_success (s : slogger) (r : LogRecord) (mem : Mem)
    (m : Manager) (w : World) :
  fst (Handle s r mem m w) = fst (stdoutLogger s (handled s mem r) w) ∧
  remote (snd (Handle s r mem m w)) =
    (if bool_decide (fst (stdoutLogger s (handled s mem r) w) = None)
        && (enabled m || (LevelError <=? recLevel r))
     then remote (snd (stdoutLogger s (handled s mem r) w)) ++ [slogEntry (handled s mem r)]
     else remote (snd (stdoutLogger s (handled s mem r) w))) ∧
  (shipped s r mem m w ↔
   fst (stdoutLogger s (handled s mem r) w) = None ∧
   (enabled m = true ∨ LevelError ≤ recLevel r)).
Proof.
  unfold shipped. rewrite Handle_spec.
  destruct (stdoutLogger s (handled s mem r) w) as [[err|] w1]; cbn [fst snd].
  - split_and!; [done | done |]. split.
    + intros Heq. apply (f_equal length) in Heq. rewrite length_app in Heq. simpl in Heq. lia.
    + intros [? _]. done.
  - destruct (enabled m) eqn:Hen; cbn [orb].
    + split_and!; [done | done |]. split; [intros _; split; [done | by left] | done].
    + destruct (Z.leb_spec LevelError (recLevel r)) as [Hle|Hlt].
      * split_and!; [done | done |]. split; [intros _; split; [done | by right] | done].
      * split_and!; [done | done |]. split.
        -- intros Heq. apply (f_equal length) in Heq. rewrite length_app in Heq.
           simpl in Heq. lia.
        -- intros [_ [?|?]]; [done | lia].
Qed.

(** C4, as the specification states it, fails when the local handler fails:
    with the lease disabled and stdout closed, a record at error level is
    not shipped. *)
Lemma severity_override_claim_fails_on_closed_stdout :
  ¬ severity_override_claim plainHandler errorRecord emptyMem managerOff
      (startWorld 0 closedStream).
Proof.
  unfold severity_override_claim, shipped. intros [_ Hship].
  assert (Hlvl : enabled managerOff = true ∨ LevelError ≤ recLevel errorRecord).
  { right. simpl. unfold LevelError. lia. }
  specialize (Hship Hlvl). apply (f_equal length) in Hship.
  rewrite length_app in Hship. vm_compute in Hship. discriminate.
Qed.

(** C7: deriving a handler with [WithAttrs] or [WithGroup] changes no list
    that can be read through an existing slice, so the attribute and group
    lists of the parent (and of every other handler) read as before; the
    parent handles a record exactly as before the derivation, without the
    attributes of the child; the list of the child is the list of the parent
    followed by the new elements, so the record handled through the child
    is the record handled through the parent with the new attributes
    added. *)
Theorem derivation_isolation (h : slogger) (extra : list Attr) (g : string) (mem : Mem)
    (r : LogRecord) (m : Manager) (w : World) :
  valid (attrMem mem) (attrs h) →
  valid (groupMem mem) (groups h) →
  let c1 := fst (WithAttrs h extra mem) in
  let mem1 := snd (WithAttrs h extra mem) in
  let c2 := fst (WithGroup h g mem) in
  let mem2 := snd (WithGroup h g mem) in
  (∀ t, valid (attrMem mem) t → read (attrMem mem1) t = read (attrMem mem) t) ∧
  (∀ t, valid (groupMem mem) t → read (groupMem mem2) t = read (groupMem mem) t) ∧
  groupMem mem1 = groupMem mem ∧ attrMem mem2 = attrMem mem ∧
  read (attrMem mem1) (attrs h) = read (attrMem mem) (attrs h) ∧
  read (groupMem mem2) (groups h) = read (groupMem mem) (groups h) ∧
  read (attrMem mem1) (attrs c1) = read (attrMem mem) (attrs h) ++ extra ∧
  read (groupMem mem1) (groups c1) = read (groupMem mem) (groups h) ∧
  read (groupMem mem2) (groups c2) = read (groupMem mem) (groups h) ++ [g] ∧
  read (attrMem mem2) (attrs c2) = read (attrMem mem) (attrs h) ∧
  Handle h r mem1 m w = Handle h r mem m w ∧
  Handle h r mem2 m w = Handle h r mem m w ∧
  handled c1 mem1 r = AddAttrs (handled h mem r) extra ∧
  valid (attrMem mem1) (attrs c1) ∧ valid (groupMem mem2) (groups c2).
Proof.
  intros Hva Hvg. cbn zeta. rewrite WithAttrs_spec, WithGroup_spec. cbn [fst snd].
  destruct (Clone_append (attrMem mem) (attrs h) extra) as (Hea & Hra & Hna).
  destruct (Clone_append (groupMem mem) (groups h) [g]) as (Heg & Hrg & Hng).
  cbn [attrMem groupMem attrs groups].
  assert (Hpa := read_extends _ _ _ Hea Hva).
  assert (Hpg := read_extends _ _ _ Heg Hvg).
  split_and!; try done.
  - intros t Ht. by apply read_extends.
  - intros t Ht. by apply read_extends.
  - unfold Handle, handled. cbn [attrMem stdoutLogger attrs]. by rewrite Hpa.
  - unfold handled. cbn [attrMem attrs]. rewrite Hra. unfold AddAttrs. cbn [recTime recMessage recLevel recAttrs].
    by rewrite List.filter_app, app_assoc.
  - by apply Hna.
  - by apply Hng.
Qed.

Lemma derivation_isolation_witness :
  valid (attrMem parentMem) (attrs parentHandler) ∧
  valid (groupMem parentMem) (groups parentHandler) ∧
  read (attrMem (snd (WithAttrs parentHandler [zoneAttr] parentMem))) (attrs parentHandler)
    = read (attrMem parentMem) (attrs parentHandler) ∧
  read (attrMem (snd (WithAttrs parentHandler [zoneAttr] parentMem)))
       (attrs (fst (WithAttrs parentHandler [zoneAttr] parentMem)))
    = read (attrMem parentMem) (attrs parentHandler) ++ [zoneAttr].
Proof.
  assert (Hva : valid (attrMem parentMem) (attrs parentHandler)) by (vm_compute; lia).
  assert (Hvg : valid (groupMem parentMem) (groups parentHandler)) by (vm_compute; lia).
  split; [exact Hva|]. split; [exact Hvg|].
  pose proof (derivation_isolation parentHandler [zoneAttr] "api" parentMem errorRecord
                managerOn (startWorld 0 openStream) Hva Hvg)
    as (_ & _ & _ & _ & Hp & _ & Hc & _).
  split; [exact Hp | exact Hc].
Defined.

(** Isolation holds along any sequence of derivations, from whatever
    handlers: a list that could be read at the start reads the same at the
    end. *)
Lemma derive_extends mem d :
  extends (attrMem mem) (attrMem (derive mem d)) ∧
  extends (groupMem mem) (groupMem (derive mem d)).
Proof.
  destruct d as [s extra|s g]; cbn [derive].
  - rewrite WithAttrs_spec. cbn [snd attrMem groupMem].
    split; [apply Clone_append | apply extends_refl].
  - rewrite WithGroup_spec. cbn [snd attrMem groupMem].
    split; [apply extends_refl | apply Clone_append].
Qed.

Lemma derivations_extend ds : ∀ mem,
  extends (attrMem mem) (attrMem (foldl derive mem ds)) ∧
  extends (groupMem mem) (groupMem (foldl derive mem ds)).
Proof.
  induction ds as [|d ds IH]; intros mem; cbn [foldl].
  - split; apply extends_refl.
  - destruct (derive_extends mem d) as [Ha Hg].
    destruct (IH (derive mem d)) as [Ha' Hg'].
    split; eapply extends_trans; eauto.
Qed.

Lemma derivations_leave_lists_alone ds mem h :
  valid (attrMem mem) (attrs h) → valid (groupMem mem) (groups h) →
  read (attrMem (foldl derive mem ds)) (attrs h) = read (attrMem mem) (attrs h) ∧
  read (groupMem (foldl derive mem ds)) (groups h) = read (groupMem mem) (groups h).
Proof.
  intros Hva Hvg. destruct (derivations_extend ds mem) as [Ha Hg].
  split; by apply read_extends.
Qed.

(** The labels shipped through the child are those of the parent, updated
    with the new attributes: no key of the parent is lost, and a new
    attribute with the key of an old one replaces its value. *)
Lemma labels_of_child r parent_attrs extra :
  labelsOf (AddAttrs (AddAttrs r parent_attrs) extra) =
  foldl addLabel (labelsOf (AddAttrs r parent_attrs))
        (List.filter (fun a => negb (isEmptyGroup (Val a))) extra).
Proof. unfold labelsOf, AddAttrs. cbn [recAttrs]. by rewrite foldl_app. Qed.

(** C10: the handler returned by [WithGroup] has the attribute slice and the
    local handler of its parent, and [Handle] reads nothing else of the
    handler: for every record it returns the same error and leaves the same
    world (same local output, same remote entry) as the parent. *)
Theorem WithGroup_handles_alike (h : slogger) (g : string) (mem : Mem) (r : LogRecord)
    (m : Manager) (w : World) :
  Handle (fst (WithGroup h g mem)) r (snd (WithGroup h g mem)) m w = Handle h r mem m w ∧
  handled (fst (WithGroup h g mem)) (snd (WithGroup h g mem)) r = handled h mem r ∧
  attrs (fst (WithGroup h g mem)) = attrs h ∧
  stdoutLogger (fst (WithGroup h g mem)) = stdoutLogger h ∧
  attrMem (snd (WithGroup h g mem)) = attrMem mem.
Proof. rewrite WithGroup_spec. cbn [fst snd]. done. Qed.

(** * The Manager from its construction on *)

Lemma NewManager_ahead (g : Time) (w : World) :
  Now w < g →
  NewManager g w =
  (mkManager g true (Some (length (timers w))),
   set_timers (timers w ++ [mkTimer g Pending None]) w).
Proof.
  unfold NewManager, After, Now. intros Hlt.
  destruct (Z.ltb_spec (clock w) g) as [_|Hge]; [|lia].
  unfold expireAfter, effective, cancelPrevious, Before, Now.
  cbn [guaranteedUntil expireTimer].
  rewrite Z.ltb_irrefl.
  destruct (Z.ltb_spec g (clock w)); [lia|].
  unfold AfterFunc, Until, Sub, enable, set_expireTimer, Now. cbn.
  by replace (clock w + (g - clock w)) with g by lia.
Qed.

(** X1: [NewManager] leaves the lease disabled, without any timer, when
    [guaranteedUntil] is not after the current time (equal included), and
    otherwise enables it and arms one timer due at [guaranteedUntil]. *)
Theorem NewManager_initial (g : Time) (w : World) :
  NewManager g w =
  if Now w <? g
  then (mkManager g true (Some (length (timers w))),
        set_timers (timers w ++ [mkTimer g Pending None]) w)
  else (mkManager g false None, w).
Proof.
  destruct (Z.ltb_spec (Now w) g) as [Hlt|Hge].
  - by apply NewManager_ahead.
  - unfold NewManager, After. destruct (Z.ltb_spec (Now w) g); [lia | done].
Qed.

(** X2: a Manager built with the floor ahead is enabled, and when nothing
    else happens its timer disables it at the floor: the clock reaches
    [guaranteedUntil], the timer expires, its function runs, prints one
    "LEASE EXPIRED" and leaves the lease disabled. *)
Theorem lease_runs_out_at_the_floor (g t0 : Time) (out : Stream) :
  t0 < g →
  enabled (fst (NewManager g (startWorld t0 out))) = true ∧
  ∃ m w,
    run [Tick (Z.to_nat (g - t0)); TimerExpires 0; CallbackRuns 0]
        (NewManager g (startWorld t0 out)) = Some (m, w) ∧
    enabled m = false ∧ Now w = g ∧ stderr w = [DiagLeaseExpired] ∧
    timers w = [mkTimer g Finished None].
Proof.
  intros Hlt. rewrite NewManager_ahead by done. cbn [startWorld clock timers].
  split; [done|].
  cbn. replace (t0 + Z.of_nat (Z.to_nat (g - t0))) with g by lia.
  rewrite Z.leb_refl. cbn. eexists _, _. split; [reflexivity|]. done.
Qed.

(** ** One pending timer at most *)

Lemma cancelPrevious_no_pending m w :
  single_pending (m, w) →
  ∀ id t, timers (cancelPrevious m w) !! id = Some t → status t ≠ Pending.
Proof.
  intros Hinv id t Hl Hp. unfold single_pending in Hinv. cbn [fst snd] in Hinv.
  unfold cancelPrevious in Hl. destruct (expireTimer m) as [id0|] eqn:Hm.
  - unfold Stop in Hl. destruct (timers w !! id0) as [t0|] eqn:Hl0.
    + destruct (status t0) eqn:Hst0; cbn [negb] in Hl.
      * cbn [set_timers timers] in Hl. apply list_lookup_insert_Some in Hl.
        destruct Hl as [(_ & <- & _)|(Hne & Hl)]; [done|].
        specialize (Hinv id t Hl Hp). congruence.
      * unfold drain in Hl. rewrite Hl0 in Hl.
        destruct (C t0) as [[|x rest]|];
          try (specialize (Hinv id t Hl Hp); congruence).
        cbn [set_timers timers] in Hl. apply list_lookup_insert_Some in Hl.
        destruct Hl as [(_ & <- & _)|(Hne & Hl)]; [simpl in Hp; congruence|].
        specialize (Hinv id t Hl Hp). congruence.
      * unfold drain in Hl. rewrite Hl0 in Hl.
        destruct (C t0) as [[|x rest]|];
          try (specialize (Hinv id t Hl Hp); congruence).
        cbn [set_timers timers] in Hl. apply list_lookup_insert_Some in Hl.
        destruct Hl as [(_ & <- & _)|(Hne & Hl)]; [simpl in Hp; congruence|].
        specialize (Hinv id t Hl Hp). congruence.
      * unfold drain in Hl. rewrite Hl0 in Hl.
        destruct (C t0) as [[|x rest]|];
          try (specialize (Hinv id t Hl Hp); congruence).
        cbn [set_timers timers] in Hl. apply list_lookup_insert_Some in Hl.
        destruct Hl as [(_ & <- & _)|(Hne & Hl)]; [simpl in Hp; congruence|].
        specialize (Hinv id t Hl Hp). congruence.
    + cbn [negb] in Hl. unfold drain in Hl. rewrite Hl0 in Hl.
      specialize (Hinv id t Hl Hp). congruence.
  - specialize (Hinv id t Hl Hp). congruence.
Qed.

Lemma expireAfter_single_pending c m w :
  single_pending (m, w) → single_pending (expireAfter c m w).
Proof.
  intros Hinv. pose proof (cancelPrevious_no_pending m w Hinv) as Hno.
  unfold expireAfter. destruct (Before _ _).
  - intros id t Hl Hp. cbn [fst snd Fprint timers] in Hl. by destruct (Hno id t Hl).
  - unfold AfterFunc. intros id t Hl Hp. cbn [fst snd set_timers timers] in Hl.
    cbn [fst set_expireTimer expireTimer].
    apply lookup_app_Some in Hl. destruct Hl as [Hl|[Hge Hl]].
    + by destruct (Hno id t Hl).
    + apply list_lookup_singleton_Some in Hl. destruct Hl as [Hz _]. f_equal. lia.
Qed.

Lemma watchStep_single_pending sn m w :
  single_pending (m, w) → single_pending (watchStep sn m w).
Proof.
  intros Hinv. destruct sn as [| |lease]; cbn [watchStep].
  - by apply expireAfter_single_pending.
  - exact Hinv.
  - pose proof (expireAfter_single_pending (ExpireAt lease) m w Hinv) as Hi.
    destruct (expireAfter (ExpireAt lease) m w) as [m1 w1].
    destruct (After _ _); exact Hi.
Qed.

Lemma step_single_pending e s s' :
  single_pending s → step e s = Some s' → single_pending s'.
Proof.
  destruct s as [m w]. intros Hinv Hstep. destruct e as [d|c|sn|id|id]; simpl in Hstep.
  - by inversion Hstep; subst.
  - inversion Hstep; subst. by apply expireAfter_single_pending.
  - inversion Hstep; subst. by apply watchStep_single_pending.
  - destruct (timers w !! id) as [t|] eqn:Hl; [|done].
    destruct (status t) eqn:Hst; try done.
    destruct (when t <=? Now w); [|done]. inversion Hstep; subst; clear Hstep.
    unfold set_status. rewrite Hl. intros id' t' Hl' Hp. cbn [fst snd set_timers timers] in *.
    apply list_lookup_insert_Some in Hl'.
    destruct Hl' as [(_ & <- & _)|(Hne & Hl')]; [done|]. by apply (Hinv id' t').
  - unfold status_of in Hstep. destruct (timers w !! id) as [t|] eqn:Hl; [|done].
    simpl in Hstep. destruct (status t) eqn:Hst; try done.
    inversion Hstep; subst; clear Hstep.
    unfold set_status. cbn [Fprint timers]. rewrite Hl.
    intros id' t' Hl' Hp. cbn [fst snd set_timers timers disable expireTimer] in *.
    apply list_lookup_insert_Some in Hl'.
    destruct Hl' as [(_ & <- & _)|(Hne & Hl')]; [done|]. by apply (Hinv id' t').
Qed.

Lemma run_invariant (P : Manager * World → Prop) :
  (∀ e s s', P s → step e s = Some s' → P s') →
  ∀ tr s s', P s → run tr s = Some s' → P s'.
Proof.
  intros Hstep tr. induction tr as [|e tr IH]; intros s s' HP Hrun; cbn [run] in Hrun.
  - by inversion Hrun; subst.
  - destruct (step e s) as [s1|] eqn:He; [|done]. eauto.
Qed.

Lemma NewManager_single_pending g t0 out :
  single_pending (NewManager g (startWorld t0 out)).
Proof.
  unfold NewManager. destruct (After _ _).
  - apply expireAfter_single_pending. by intros id t Hl.
  - by intros id t Hl.
Qed.

(** X3: in every execution at most one timer is pending, and it is the one
    the Manager holds in [expireTimer]: each call of [expireAfter] stops the
    previous timer before arming the next. *)
Theorem at_most_one_pending_timer (g t0 : Time) (out : Stream) (tr : list Event)
    (m : Manager) (w : World) (id1 id2 : nat) (t1 t2 : Timer) :
  run tr (NewManager g (startWorld t0 out)) = Some (m, w) →
  timers w !! id1 = Some t1 → status t1 = Pending →
  timers w !! id2 = Some t2 → status t2 = Pending →
  id1 = id2 ∧ expireTimer m = Some id1.
Proof.
  intros Hrun Hl1 Hp1 Hl2 Hp2.
  pose proof (run_invariant single_pending step_single_pending tr _ _
                (NewManager_single_pending g t0 out) Hrun) as Hinv.
  pose proof (Hinv id1 t1 Hl1 Hp1) as H1. pose proof (Hinv id2 t2 Hl2 Hp2) as H2.
  cbn [fst] in *. split; [congruence | done].
Qed.

(** ** An enabled lease has its disabling ahead *)

Lemma expireAfter_disable_scheduled c m w : disable_scheduled (expireAfter c m w).
Proof.
  unfold expireAfter. destruct (Before _ _); [done|].
  unfold AfterFunc. intros _. cbn [fst snd set_expireTimer expireTimer set_timers timers].
  eexists _, _. split; [done|]. split; [by apply list_lookup_middle|]. by left.
Qed.

Lemma step_disable_scheduled e s s' :
  disable_scheduled s → step e s = Some s' → disable_scheduled s'.
Proof.
  destruct s as [m w]. intros Hinv Hstep. destruct e as [d|c|sn|id|id]; simpl in Hstep.
  - by inversion Hstep; subst.
  - inversion Hstep; subst. apply expireAfter_disable_scheduled.
  - destruct sn as [| |lease]; cbn [watchStep] in Hstep.
    + inversion Hstep; subst. apply expireAfter_disable_scheduled.
    + by inversion Hstep; subst.
    + pose proof (expireAfter_disable_scheduled (ExpireAt lease) m w) as Hi.
      destruct (expireAfter (ExpireAt lease) m w) as [m1 w1].
      destruct (After _ _); inversion Hstep; subst; exact Hi.
  - destruct (timers w !! id) as [t|] eqn:Hl; [|done].
    destruct (status t) eqn:Hst; try done.
    destruct (when t <=? Now w); [|done]. inversion Hstep; subst; clear Hstep.
    unfold set_status. rewrite Hl. intros Hen. destruct (Hinv Hen) as (id0 & t0 & Hm & Hl0 & Hs0).
    cbn [fst snd set_timers timers] in *.
    destruct (decide (id = id0)) as [->|Hne].
    + eexists _, _. split; [done|]. split.
      * apply list_lookup_insert_eq. by eapply lookup_lt_Some.
      * by right.
    + eexists _, _. split; [done|]. split; [|exact Hs0].
      by rewrite list_lookup_insert_ne.
  - unfold status_of in Hstep. destruct (timers w !! id) as [t|] eqn:Hl; [|done].
    simpl in Hstep. destruct (status t) eqn:Hst; try done.
    inversion Hstep; subst; clear Hstep. intros Hen. done.
Qed.

(** X4: in every execution, an enabled lease has the timer held in
    [expireTimer] either pending or expired with its function still to run,
    and that timer is due no earlier than the floor: the lease is never left
    enabled without a disabling ahead. *)
Theorem enabled_lease_has_disable_ahead (g t0 : Time) (out : Stream) (tr : list Event)
    (m : Manager) (w : World) :
  run tr (NewManager g (startWorld t0 out)) = Some (m, w) →
  enabled m = true →
  ∃ id t, expireTimer m = Some id ∧ timers w !! id = Some t ∧
          (status t = Pending ∨ status t = Running) ∧ g ≤ when t.
Proof.
  intros Hrun Hen.
  assert (Hinit : disable_scheduled (NewManager g (startWorld t0 out))).
  { unfold NewManager. destruct (After _ _); [apply expireAfter_disable_scheduled | done]. }
  pose proof (run_invariant disable_scheduled step_disable_scheduled tr _ _ Hinit Hrun) as Hinv.
  destruct (Hinv Hen) as (id & t & Hm & Hl & Hs). cbn [fst snd] in *.
  pose proof (run_floor_inv g tr _ _ (NewManager_floor_inv g t0 out) Hrun) as (_ & Hall & _).
  pose proof (Forall_lookup_1 _ _ _ _ Hall Hl) as [Hw _].
  eauto 10.
Qed.

(** ** Without news of the record the lease is never enabled *)

Lemma step_quiet_enabled e m w m' w' :
  quiet e → step e (m, w) = Some (m', w') → enabled m' = true → enabled m = true.
Proof.
  intros Hq Hstep. destruct e as [d|c|sn|id|id]; simpl in Hstep; try done.
  - by inversion Hstep; subst.
  - destruct sn; try done. cbn [watchStep] in Hstep. by inversion Hstep; subst.
  - destruct (timers w !! id) as [t|] eqn:Hl; [|done].
    destruct (status t) eqn:Hst; try done.
    destruct (when t <=? Now w); [|done]. by inversion Hstep; subst.
  - destruct (status_of id w) as [st|]; [|done]. destruct st; try done.
    inversion Hstep; subst. done.
Qed.

(** X5: only a call of [expireAfter] enables the lease: the passing of time,
    the timers and snapshots that cannot be parsed leave a disabled lease
    disabled, from any state. *)
Theorem quiet_events_never_enable (tr : list Event) : ∀ (m m' : Manager) (w w' : World),
  Forall quiet tr →
  run tr (m, w) = Some (m', w') →
  enabled m = false → enabled m' = false.
Proof.
  induction tr as [|e tr IH]; intros m m' w w' Hq Hrun Hoff; cbn [run] in Hrun.
  - by inversion Hrun; subst.
  - destruct (step e (m, w)) as [[m1 w1]|] eqn:He; [|done].
    apply Forall_cons in Hq. destruct Hq as [Hqe Hq].
    eapply IH; [exact Hq | exact Hrun |].
    destruct (enabled m1) eqn:Hen1; [|done].
    pose proof (step_quiet_enabled e m w m1 w1 Hqe He Hen1). congruence.
Qed.

(** * The watcher *)

Lemma cancelPrevious_streams m w :
  stderr (cancelPrevious m w) = stderr w ∧ stdout (cancelPrevious m w) = stdout w ∧
  remote (cancelPrevious m w) = remote w.
Proof.
  unfold cancelPrevious. destruct (expireTimer m) as [id|]; [|done].
  unfold Stop. destruct (timers w !! id) as [t|] eqn:Hl; [|cbn; unfold drain; by rewrite Hl].
  destruct (status t); cbn [negb]; try done;
    unfold drain; rewrite Hl; by destruct (C t) as [[|? ?]|].
Qed.

(** What a call of [expireAfter] prints. *)
Lemma expireAfter_stderr c m w :
  stderr (snd (expireAfter c m w)) =
  stderr w ++ (if Before (effective c m) (Now w) then [DiagLeaseExpired] else []).
Proof.
  destruct (cancelPrevious_streams m w) as (He & _ & _).
  unfold expireAfter, Now. rewrite cancelPrevious_clock.
  destruct (Before (effective c m) (clock w)).
  - cbn. by rewrite He.
  - unfold AfterFunc. cbn. by rewrite He, app_nil_r.
Qed.

Lemma expireAfter_clock c m w : clock (snd (expireAfter c m w)) = clock w.
Proof.
  unfold expireAfter. destruct (Before _ _); cbn; by rewrite cancelPrevious_clock.
Qed.

(** X6: what the watcher prints for a snapshot of an existing record:
    "LEASE EXPIRED" when the effective expiration is already past, then
    "LEASE EXTENDED" whenever the expiration of the record is after
    [guaranteedUntil], whether or not it is past.  For a record that expired
    after the floor but before now the lease is disabled and both lines are
    printed, the second with a remaining duration that is not positive. *)
Theorem watchStep_present_diagnostics (lease : Document) (m : Manager) (w : World) :
  stderr (snd (watchStep (Present lease) m w)) =
  stderr w
  ++ (if Before (effective (ExpireAt lease) m) (Now w) then [DiagLeaseExpired] else [])
  ++ (if After (ExpireAt lease) (guaranteedUntil m)
      then [DiagLeaseExtended (Round (ExpireAt lease - Now w) (Millisecond * 100))
              (User lease) (Reason lease)]
      else []) ∧
  (if After (ExpireAt lease) (guaranteedUntil m) && Before (ExpireAt lease) (Now w)
   then enabled (fst (watchStep (Present lease) m w)) = false ∧
        stderr (snd (watchStep (Present lease) m w)) =
          stderr w ++ [DiagLeaseExpired;
                       DiagLeaseExtended (Round (ExpireAt lease - Now w) (Millisecond * 100))
                         (User lease) (Reason lease)] ∧
        Round (ExpireAt lease - Now w) (Millisecond * 100) ≤ 0
   else True).
Proof.
  assert (Hmain : stderr (snd (watchStep (Present lease) m w)) =
    stderr w
    ++ (if Before (effective (ExpireAt lease) m) (Now w) then [DiagLeaseExpired] else [])
    ++ (if After (ExpireAt lease) (guaranteedUntil m)
        then [DiagLeaseExtended (Round (ExpireAt lease - Now w) (Millisecond * 100))
                (User lease) (Reason lease)]
        else [])).
  { cbn [watchStep].
    pose proof (expireAfter_stderr (ExpireAt lease) m w) as He.
    pose proof (expireAfter_clock (ExpireAt lease) m w) as Hc.
    pose proof (expireAfter_guaranteedUntil (ExpireAt lease) m w) as Hg.
    destruct (expireAfter (ExpireAt lease) m w) as [m1 w1]. cbn [fst snd] in *.
    rewrite Hg. destruct (After (ExpireAt lease) (guaranteedUntil m)).
    - cbn [snd Fprint stderr]. unfold Until, Sub, Now. rewrite He, Hc.
      by rewrite <- app_assoc.
    - cbn [snd]. by rewrite He, app_nil_r. }
  split; [exact Hmain|].
  destruct (After (ExpireAt lease) (guaranteedUntil m)) eqn:Ha; [|done].
  destruct (Before (ExpireAt lease) (Now w)) eqn:Hb; [|done]. cbn [andb].
  assert (Heff : effective (ExpireAt lease) m = ExpireAt lease).
  { unfold effective, Before. unfold After in Ha. apply Z.ltb_lt in Ha.
    destruct (Z.ltb_spec (ExpireAt lease) (guaranteedUntil m)); [lia | done]. }
  rewrite Heff, Hb in Hmain. split_and!.
  - cbn [watchStep].
    pose proof (expireAfter_enabled (ExpireAt lease) m w) as He. rewrite Heff, Hb in He.
    destruct (expireAfter (ExpireAt lease) m w) as [m1 w1]. cbn [fst negb] in He.
    destruct (After (ExpireAt lease) (guaranteedUntil m1)); exact He.
  - exact Hmain.
  - unfold Before in Hb. apply Z.ltb_lt in Hb.
    set (d := ExpireAt lease - Now w). assert (Hd : d < 0) by (unfold d; lia).
    change (Millisecond * 100) with 100000000. unfold Round. set (u := 100000000).
    assert (Hu : 0 < u) by (unfold u; lia).
    destruct (Z.leb_spec u 0); [lia|]. destruct (Z.ltb_spec d 0); [|lia].
    pose proof (Z.quot_rem' d u) as Hqr.
    pose proof (Z.rem_bound_pos_neg d u ltac:(lia) ltac:(lia)) as Hr.
    assert (Hq : Z.quot d u ≤ 0) by nia.
    assert (Hm : u * Z.quot d u ≤ 0) by nia.
    destruct (Z.ltb_spec (- Z.rem d u + - Z.rem d u) u); lia.
Qed.

(** X7: [watchLease] handles the snapshots in order up to the first result
    that is not a snapshot and ignores everything after it; it returns nil
    for [io.EOF], deadline and cancellation, and the error (after printing
    it) for any other failure; the Manager is the one the snapshots
    produced. *)
Theorem watchLoop_stops_at_first_end (ss : list Snapshot) (t : IterResult)
    (rest : list IterResult) (o : option error) (m : Manager) (w : World) :
  outcome t = Some o →
  watchLoop (map IterSnapshot ss) m w = (None, watchSteps ss (m, w)) ∧
  watchLoop (map IterSnapshot ss ++ t :: rest) m w =
    (Some o,
     (fst (watchSteps ss (m, w)),
      match o with
      | Some _ => Fprint DiagSnapshotFailed (snd (watchSteps ss (m, w)))
      | None => snd (watchSteps ss (m, w))
      end)).
Proof.
  intros Ho. revert m w. induction ss as [|sn ss IH]; intros m w.
  - cbn [map app watchLoop watchSteps foldl fst snd]. split; [done|].
    destruct t; cbn in Ho; inversion Ho; subst; done.
  - cbn [map app watchLoop]. unfold watchSteps. cbn [foldl fst snd].
    destruct (watchStep sn m w) as [m1 w1] eqn:Hs. apply IH.
Qed.

Lemma Stop_same_but_stderr id w1 w2 :
  same_but_stderr w1 w2 →
  fst (Stop id w1) = fst (Stop id w2) ∧ same_but_stderr (snd (Stop id w1)) (snd (Stop id w2)).
Proof.
  destruct w1 as [ck ts so se1 re], w2 as [ck2 ts2 so2 se2 re2].
  unfold same_but_stderr. cbn. intros (<- & <- & <- & <-).
  unfold Stop. cbn. destruct (ts !! id) as [t|]; [|done].
  by destruct (status t).
Qed.

Lemma drain_same_but_stderr id w1 w2 :
  same_but_stderr w1 w2 → same_but_stderr (drain id w1) (drain id w2).
Proof.
  destruct w1 as [ck ts so se1 re], w2 as [ck2 ts2 so2 se2 re2].
  unfold same_but_stderr. cbn. intros (<- & <- & <- & <-).
  unfold drain. cbn. destruct (ts !! id) as [t|]; [|done].
  by destruct (C t) as [[|? ?]|].
Qed.

Lemma cancelPrevious_same_but_stderr m w1 w2 :
  same_but_stderr w1 w2 → same_but_stderr (cancelPrevious m w1) (cancelPrevious m w2).
Proof.
  intros Hs. unfold cancelPrevious. destruct (expireTimer m) as [id|]; [|done].
  destruct (Stop_same_but_stderr id w1 w2 Hs) as [Hb Hw].
  destruct (Stop id w1) as [b1 u1], (Stop id w2) as [b2 u2]. cbn [fst snd] in *. subst b2.
  destruct b1; cbn [negb]; [done|]. by apply drain_same_but_stderr.
Qed.

Lemma Fprint_same_but_stderr d w1 w2 :
  same_but_stderr w1 w2 → same_but_stderr (Fprint d w1) w2 ∧ same_but_stderr w1 (Fprint d w2).
Proof. unfold same_but_stderr. cbn. intros (? & ? & ? & ?). done. Qed.

Lemma expireAfter_same_but_stderr c m w1 w2 :
  same_but_stderr w1 w2 →
  fst (expireAfter c m w1) = fst (expireAfter c m w2) ∧
  same_but_stderr (snd (expireAfter c m w1)) (snd (expireAfter c m w2)).
Proof.
  intros Hs. pose proof (cancelPrevious_same_but_stderr m w1 w2 Hs) as (Hc & Ht & Hso & Hre).
  unfold expireAfter, Now. rewrite Hc.
  destruct (Before (effective c m) (clock (cancelPrevious m w2))).
  - split; [done|]. unfold same_but_stderr. cbn. done.
  - unfold AfterFunc, Until, Sub, Now. rewrite Hc, Ht. split; [done|].
    unfold same_but_stderr. cbn. done.
Qed.

Lemma watchStep_same_but_stderr sn m w1 w2 :
  same_but_stderr w1 w2 →
  fst (watchStep sn m w1) = fst (watchStep sn m w2) ∧
  same_but_stderr (snd (watchStep sn m w1)) (snd (watchStep sn m w2)).
Proof.
  intros Hs. destruct sn as [| |lease]; cbn [watchStep].
  - by apply expireAfter_same_but_stderr.
  - split; [done|]. unfold same_but_stderr in *. cbn. done.
  - destruct (expireAfter_same_but_stderr (ExpireAt lease) m w1 w2 Hs) as [Hm Hw].
    destruct (expireAfter (ExpireAt lease) m w1) as [m1 u1],
             (expireAfter (ExpireAt lease) m w2) as [m2 u2]. cbn [fst snd] in *. subst m2.
    destruct (After _ _); [|done]. split; [done|].
    unfold same_but_stderr in *. cbn. done.
Qed.

Lemma watchLoop_without_malformed (results : list IterResult) :
  ∀ (m : Manager) (w1 w2 : World),
  same_but_stderr w1 w2 →
  fst (watchLoop results m w1) = fst (watchLoop (List.filter notMalformed results) m w2) ∧
  fst (snd (watchLoop results m w1))
    = fst (snd (watchLoop (List.filter notMalformed results) m w2)) ∧
  same_but_stderr (snd (snd (watchLoop results m w1)))
                  (snd (snd (watchLoop (List.filter notMalformed results) m w2))).
Proof.
  induction results as [|t results IH]; intros m w1 w2 Hs.
  - cbn. done.
  - destruct t as [sn| | | |].
    + destruct sn as [| |lease].
      * cbn [List.filter notMalformed watchLoop].
        destruct (watchStep_same_but_stderr Absent m w1 w2 Hs) as [Hm Hw].
        destruct (watchStep Absent m w1) as [m1 u1], (watchStep Absent m w2) as [m2 u2].
        cbn [fst snd] in *. subst m2. by apply IH.
      * cbn [List.filter notMalformed watchLoop watchStep]. apply IH.
        by apply Fprint_same_but_stderr.
      * cbn [List.filter notMalformed watchLoop].
        destruct (watchStep_same_but_stderr (Present lease) m w1 w2 Hs) as [Hm Hw].
        destruct (watchStep (Present lease) m w1) as [m1 u1],
                 (watchStep (Present lease) m w2) as [m2 u2].
        cbn [fst snd] in *. subst m2. by apply IH.
    + cbn. done.
    + cbn. done.
    + cbn. done.
    + cbn. split_and!; [done | done |]. unfold same_but_stderr in *. cbn. done.
Qed.

(** X8: snapshots that cannot be parsed have no effect on the lease: the
    loop of [watchLease] returns the same result and leaves the same
    Manager, clock, timers, stdout and remote sink as on the results with
    those snapshots removed; only the diagnostics on stderr differ. *)
Theorem malformed_snapshots_change_nothing (results : list IterResult) (m : Manager)
    (w : World) :
  fst (watchLoop results m w) = fst (watchLoop (List.filter notMalformed results) m w) ∧
  fst (snd (watchLoop results m w))
    = fst (snd (watchLoop (List.filter notMalformed results) m w)) ∧
  same_but_stderr (snd (snd (watchLoop results m w)))
                  (snd (snd (watchLoop (List.filter notMalformed results) m w))).
Proof. apply watchLoop_without_malformed. unfold same_but_stderr. done. Qed.

(** * The writers *)

(** X9: the caller of the primary writer cannot observe the lease: the
    count and error returned and the contents of stdout are the same
    whatever the Manager's state, and the write changes neither the
    diagnostics on stderr, nor the timers, nor the clock. *)
Theorem primary_writer_is_lease_blind (p : bytes) (m1 m2 : Manager) (w : World) :
  fst (toggleableWriter_Write StdoutWriter p m1 w)
    = fst (toggleableWriter_Write StdoutWriter p m2 w) ∧
  stdout (snd (toggleableWriter_Write StdoutWriter p m1 w))
    = stdout (snd (toggleableWriter_Write StdoutWriter p m2 w)) ∧
  stderr (snd (toggleableWriter_Write StdoutWriter p m1 w)) = stderr w ∧
  timers (snd (toggleableWriter_Write StdoutWriter p m1 w)) = timers w ∧
  clock (snd (toggleableWriter_Write StdoutWriter p m1 w)) = clock w.
Proof.
  assert (Hone : ∀ m,
    fst (toggleableWriter_Write StdoutWriter p m w) = fst (fileWrite p (stdout w)) ∧
    stdout (snd (toggleableWriter_Write StdoutWriter p m w)) = snd (fileWrite p (stdout w)) ∧
    stderr (snd (toggleableWriter_Write StdoutWriter p m w)) = stderr w ∧
    timers (snd (toggleableWriter_Write StdoutWriter p m w)) = timers w ∧
    clock (snd (toggleableWriter_Write StdoutWriter p m w)) = clock w).
  { intros m. unfold toggleableWriter_Write, StdoutWriter. cbn [upstream fallback].
    destruct (enabled m).
    - rewrite upstream_spec, osStdout_spec, fileWrite_result.
      destruct (accepts (stdout w) p); done.
    - rewrite osStdout_spec. done. }
  destruct (Hone m1) as (-> & -> & -> & -> & ->).
  destruct (Hone m2) as (-> & -> & _). done.
Qed.

(** X10: the diagnostic writer consults no lease: the buffer goes to stderr
    first and, when stderr took all of it, to the remote sink as one entry
    of severity Error; an error or short count of stderr is returned and
    nothing is forwarded. *)
Theorem diagnostic_writer_forwards_always (osStderr : Writer) (p : bytes) (w : World) :
  StderrWriter osStderr p w =
  match osStderr p w with
  | ((n, Some err), w1) => ((n, Some err), w1)
  | ((n, None), w1) =>
      if (n =? length p)%nat
      then ((length p, None), Log (rawEntry Error p) w1)
      else ((n, Some ErrShortWrite), w1)
  end.
Proof.
  unfold StderrWriter. cbn [MultiWriter].
  destruct (osStderr p w) as [[n [err|]] w1]; [done|].
  destruct (Nat.eqb_spec n (length p)); [|done].
  cbn. by rewrite Nat.eqb_refl.
Qed.

(** X11: during the guaranteed window all primary output is shipped: at
    every point of every execution where the current time is before
    [guaranteedUntil], [Manager.Write] forwards the buffer, and a write
    through the primary writer that stdout accepts is both printed and
    forwarded, and reports success. *)
Theorem guaranteed_window_ships_output (g t0 : Time) (out : Stream) (tr : list Event)
    (m : Manager) (w : World) (p : bytes) :
  run tr (NewManager g (startWorld t0 out)) = Some (m, w) →
  Now w < g →
  remote (snd (Manager_Write p m w)) = remote w ++ [rawEntry Info p] ∧
  (accepts (stdout w) p = true →
   remote (snd (toggleableWriter_Write StdoutWriter p m w)) = remote w ++ [rawEntry Info p] ∧
   fst (toggleableWriter_Write StdoutWriter p m w) = (length p, None) ∧
   data (stdout (snd (toggleableWriter_Write StdoutWriter p m w))) = data (stdout w) ++ p).
Proof.
  intros Hrun Hlt.
  destruct (floor_holds_in_every_execution g t0 out tr m w Hrun) as [_ Hen].
  specialize (Hen Hlt). split.
  - unfold Manager_Write. by rewrite Hen.
  - intros Hacc. unfold toggleableWriter_Write, StdoutWriter. cbn [upstream fallback].
    rewrite Hen, upstream_spec, Hacc, osStdout_spec. cbn.
    split_and!; [done .. |]. by apply fileWrite_accepts.
Qed.

(** * The handler *)

(** X12: [getSeverity] maps exactly the four named levels to their
    severities and every other level, the levels above [LevelError]
    included, to Default. *)
Theorem getSeverity_preimages (l : Level) :
  (getSeverity l = Debug ↔ l = LevelDebug) ∧
  (getSeverity l = Info ↔ l = LevelInfo) ∧
  (getSeverity l = Warning ↔ l = LevelWarn) ∧
  (getSeverity l = Error ↔ l = LevelError) ∧
  (getSeverity l = Default ↔
   l ≠ LevelDebug ∧ l ≠ LevelInfo ∧ l ≠ LevelWarn ∧ l ≠ LevelError).
Proof.
  unfold getSeverity, LevelDebug, LevelInfo, LevelWarn, LevelError.
  destruct (Z.eqb_spec l (-4)); [split_and!; split; intros; try done; lia|].
  destruct (Z.eqb_spec l 0); [split_and!; split; intros; try done; lia|].
  destruct (Z.eqb_spec l 4); [split_and!; split; intros; try done; lia|].
  destruct (Z.eqb_spec l 8); [split_and!; split; intros; try done; lia|].
  split_and!; split; intros; try done; lia.
Qed.

(** X13: with the lease disabled, whatever [Handle] ships has a level of
    at least [LevelError], and the entry carries severity Error when the
    level is exactly [LevelError] and Default for every higher level. *)
Theorem disabled_lease_ships_errors_only (s : slogger) (r : LogRecord) (mem : Mem)
    (m : Manager) (w : World) :
  enabled m = false →
  remote (snd (Handle s r mem m w)) ≠ remote (snd (stdoutLogger s (handled s mem r) w)) →
  LevelError ≤ recLevel r ∧
  remote (snd (Handle s r mem m w)) =
    remote (snd (stdoutLogger s (handled s mem r) w)) ++ [slogEntry (handled s mem r)] ∧
  EntrySeverity (slogEntry (handled s mem r)) =
    (if recLevel r =? LevelError then Error else Default).
Proof.
  intros Hoff Hne. rewrite Handle_spec in *. rewrite Hoff in *. cbn [orb] in *.
  destruct (stdoutLogger s (handled s mem r) w) as [[err|] w1]; cbn [fst snd] in *; [done|].
  destruct (Z.leb_spec LevelError (recLevel r)) as [Hle|Hlt]; [|done].
  split; [done|]. split; [done|].
  cbn [slogEntry EntrySeverity handled AddAttrs recLevel].
  unfold getSeverity, LevelDebug, LevelInfo, LevelWarn, LevelError in *.
  destruct (Z.eqb_spec (recLevel r) (-4)); [lia|].
  destruct (Z.eqb_spec (recLevel r) 0); [lia|].
  destruct (Z.eqb_spec (recLevel r) 4); [lia|]. done.
Qed.

Lemma foldl_addLabel_lookup (l : list Attr) : ∀ (labels : gmap string string) (k : string),
  foldl addLabel labels l !! k =
  match lastWithKey k l with
  | Some v => Some v
  | None => labels !! k
  end.
Proof.
  unfold lastWithKey. induction l as [|a l IH]; intros labels k; [done|].
  cbn [foldl List.filter]. rewrite IH. destruct (bool_decide_reflect (Key a = k)) as [Hk|Hk].
  - rewrite last_cons. destruct (last (List.filter _ l)) as [b|]; [done|].
    cbn. unfold addLabel. rewrite Hk. by rewrite lookup_insert_eq.
  - destruct (last (List.filter _ l)) as [b|]; [done|].
    cbn. unfold addLabel. by rewrite lookup_insert_ne.
Qed.

(** X14: the label shipped under a key is the value of the last attribute
    with that key, the attributes of the record coming before those of the
    handler: an attribute given with [WithAttrs] replaces, in the remote
    entry, an attribute of the record with the same key. *)
Theorem shipped_label_is_last_attribute (s : slogger) (mem : Mem) (r : LogRecord)
    (k : string) :
  Labels (slogEntry (handled s mem r)) !! k =
  lastWithKey k (recAttrs r ++
                 List.filter (fun a => negb (isEmptyGroup (Val a)))
                             (read (attrMem mem) (attrs s))) ∧
  (∀ v, lastWithKey k (List.filter (fun a => negb (isEmptyGroup (Val a)))
                                   (read (attrMem mem) (attrs s))) = Some v →
        Labels (slogEntry (handled s mem r)) !! k = Some v).
Proof.
  cbn [slogEntry Labels]. unfold labelsOf. rewrite foldl_addLabel_lookup.
  rewrite lookup_empty. cbn [handled AddAttrs recAttrs].
  split; [by destruct (lastWithKey _ _)|].
  intros v Hv. unfold lastWithKey in *. rewrite List.filter_app, last_app.
  destruct (last (List.filter (λ a, bool_decide (Key a = k))
               (List.filter (λ a, negb (isEmptyGroup (Val a)))
                  (read (attrMem mem) (attrs s))))) as [b|]; [|done].
  cbn in *. done.
Qed.

(** X15: for a handler printing through a text handler on stdout (as built
    by [SlogLogger], and kept by the derived handlers), the local line is
    written for every record, whatever the lease and the level; the error
    returned by [Handle] is the error of that write; stderr is not
    touched. *)
Theorem local_output_ignores_the_lease (s : slogger) (format : LogRecord → bytes)
    (r : LogRecord) (mem : Mem) (m : Manager) (w : World) :
  stdoutLogger s = TextHandler format →
  stdout (snd (Handle s r mem m w)) = snd (fileWrite (format (handled s mem r)) (stdout w)) ∧
  fst (Handle s r mem m w) = snd (fst (fileWrite (format (handled s mem r)) (stdout w))) ∧
  stderr (snd (Handle s r mem m w)) = stderr w.
Proof.
  intros Hs. rewrite Handle_spec, Hs. unfold TextHandler. rewrite osStdout_spec.
  destruct (fileWrite (format (handled s mem r)) (stdout w)) as [[n err] st].
  cbn [fst snd]. destruct err as [e|]; [done|].
  by destruct (enabled m || (LevelError <=? recLevel r)).
Qed.

Lemma Handle_congr s1 s2 r mem1 mem2 m w :
  stdoutLogger s1 = stdoutLogger s2 →
  handled s1 mem1 r = handled s2 mem2 r →
  Handle s1 r mem1 m w = Handle s2 r mem2 m w.
Proof. intros Hl Hh. rewrite !Handle_spec. by rewrite Hl, Hh. Qed.

(** X16: [WithAttrs] composes: [h.WithAttrs(a).WithAttrs(b)] reads the same
    attribute list as [h.WithAttrs(a ++ b)] and handles every record in the
    same way. *)
Theorem WithAttrs_composes (h : slogger) (a b : list Attr) (mem : Mem) (r : LogRecord)
    (m : Manager) (w : World) :
  let c1 := fst (WithAttrs h a mem) in
  let mem1 := snd (WithAttrs h a mem) in
  let c2 := fst (WithAttrs c1 b mem1) in
  let mem2 := snd (WithAttrs c1 b mem1) in
  let c := fst (WithAttrs h (a ++ b) mem) in
  let mem' := snd (WithAttrs h (a ++ b) mem) in
  read (attrMem mem2) (attrs c2) = read (attrMem mem) (attrs h) ++ a ++ b ∧
  read (attrMem mem') (attrs c) = read (attrMem mem) (attrs h) ++ a ++ b ∧
  Handle c2 r mem2 m w = Handle c r mem' m w.
Proof.
  cbn zeta. rewrite !WithAttrs_spec. cbn [fst snd attrMem attrs stdoutLogger].
  destruct (Clone_append (attrMem mem) (attrs h) a) as (_ & Hr1 & _).
  destruct (Clone_append (attrMem mem) (attrs h) (a ++ b)) as (_ & Hr & _).
  set (h1 := snd (append (snd (Clone (attrMem mem) (attrs h)))
                         (fst (Clone (attrMem mem) (attrs h))) a)) in *.
  set (s1 := fst (append (snd (Clone (attrMem mem) (attrs h)))
                         (fst (Clone (attrMem mem) (attrs h))) a)) in *.
  destruct (Clone_append h1 s1 b) as (_ & Hr2 & _).
  assert (H2 : read (snd (append (snd (Clone h1 s1)) (fst (Clone h1 s1)) b))
                    (fst (append (snd (Clone h1 s1)) (fst (Clone h1 s1)) b))
               = read (attrMem mem) (attrs h) ++ a ++ b).
  { by rewrite Hr2, Hr1, app_assoc. }
  split; [exact H2|]. split; [exact Hr|].
  apply Handle_congr; [done|]. unfold handled. cbn [attrMem attrs]. by rewrite H2, Hr.
Qed.

(** X17: [WithAttrs] with no attributes gives a handler that reads the
    attributes of its parent and handles every record as the parent does. *)
Theorem WithAttrs_nothing_added (h : slogger) (mem : Mem) (r : LogRecord)
    (m : Manager) (w : World) :
  read (attrMem (snd (WithAttrs h [] mem))) (attrs (fst (WithAttrs h [] mem)))
    = read (attrMem mem) (attrs h) ∧
  Handle (fst (WithAttrs h [] mem)) r (snd (WithAttrs h [] mem)) m w = Handle h r mem m w.
Proof.
  rewrite WithAttrs_spec. cbn [fst snd attrMem attrs].
  destruct (Clone_append (attrMem mem) (attrs h) []) as (_ & Hr & _).
  rewrite app_nil_r in Hr. split; [exact Hr|].
  apply Handle_congr; [done|]. unfold handled. cbn [attrMem attrs]. by rewrite Hr.
Qed.

(** X18: during the guaranteed window every record is shipped, whatever its
    level: at every point of every execution where the current time is
    before [guaranteedUntil], a record that the local handler printed
    without error is given to the remote sink. *)
Theorem guaranteed_window_ships_records (g t0 : Time) (out : Stream) (tr : list Event)
    (m : Manager) (w : World) (s : slogger) (r : LogRecord) (mem : Mem) :
  run tr (NewManager g (startWorld t0 out)) = Some (m, w) →
  Now w < g →
  fst (stdoutLogger s (handled s mem r) w) = None →
  fst (Handle s r mem m w) = None ∧
  remote (snd (Handle s r mem m w)) =
    remote (snd (stdoutLogger s (handled s mem r) w)) ++ [slogEntry (handled s mem r)].
Proof.
  intros Hrun Hlt Hok.
  destruct (floor_holds_in_every_execution g t0 out tr m w Hrun) as [_ Hen].
  specialize (Hen Hlt). rewrite Handle_spec, Hok, Hen. done.
Qed.

Lemma handled_SlogLogger format mem r : handled (SlogLogger format) mem r = AddAttrs r [].
Proof. done. Qed.

(** X19: one turn of [generateLogs], with a handler from [SlogLogger] and a
    stdout that accepts everything, prints its three records locally in
    order, and ships all three (severities Info, Warning, Error) when the
    lease is enabled and only the error record when it is disabled. *)
Theorem generateLogsTurn_ships (format : LogRecord → bytes) (mem : Mem) (m : Manager)
    (w : World) :
  room (stdout w) = None →
  let w' := generateLogsTurn (SlogLogger format) mem m w in
  data (stdout w') =
    data (stdout w) ++ format (infoRecord (Now w)) ++ format (warnRecord (Now w))
                    ++ format (errorDemoRecord (Now w)) ∧
  remote w' =
    remote w ++ (if enabled m
                 then [slogEntry (infoRecord (Now w)); slogEntry (warnRecord (Now w));
                       slogEntry (errorDemoRecord (Now w))]
                 else [slogEntry (errorDemoRecord (Now w))]).
Proof.
  intros Hroom. destruct w as [ck ts so se re]. destruct so as [d rm]. cbn in Hroom. subst rm.
  cbn zeta. unfold generateLogsTurn, loggerLog, Enabled, Handle, TextHandler, osStdout,
    fileWrite, Now. cbn.
  destruct (enabled m); cbn; rewrite <- ?app_assoc; done.
Qed.

(** * A lease holds until its expiration *)

Lemma cancelPrevious_no_new_running m w :
  Forall (fun t => status t ≠ Running) (timers w) →
  Forall (fun t => status t ≠ Running) (timers (cancelPrevious m w)).
Proof.
  intros Hall. unfold cancelPrevious. destruct (expireTimer m) as [id|]; [|done].
  unfold Stop. destruct (timers w !! id) as [t|] eqn:Hl.
  - pose proof (Forall_lookup_1 _ _ _ _ Hall Hl) as Ht.
    destruct (status t) eqn:Hst; cbn [negb]; try done.
    + cbn. by apply Forall_insert.
    + unfold drain. rewrite Hl. destruct (C t) as [[|x rest]|]; try done.
      cbn. apply Forall_insert; [done|]. cbn. congruence.
    + unfold drain. rewrite Hl. destruct (C t) as [[|x rest]|]; try done.
      cbn. apply Forall_insert; [done|]. cbn. congruence.
  - cbn. unfold drain. by rewrite Hl.
Qed.

Lemma expireAfter_holds_until c m w :
  single_pending (m, w) →
  Forall (fun t => status t ≠ Running) (timers w) →
  holds_until (effective c m) (expireAfter c m w).
Proof.
  intros Hsp Hnr.
  pose proof (cancelPrevious_no_pending m w Hsp) as Hnp.
  pose proof (cancelPrevious_no_new_running m w Hnr) as Hnr'.
  pose proof (cancelPrevious_clock m w) as Hck.
  assert (Hold : Forall (timer_due (effective c m) (clock w)) (timers (cancelPrevious m w))).
  { apply Forall_lookup_2. intros id t Hl. split; intros Hs.
    - by destruct (Hnp id t Hl).
    - by destruct (Forall_lookup_1 _ _ _ _ Hnr' Hl). }
  unfold holds_until, expireAfter, Now. rewrite Hck.
  destruct (Before (effective c m) (clock w)) eqn:Hb; cbn [fst snd].
  - cbn. rewrite Hck. split; [done|]. unfold Before in Hb. apply Z.ltb_lt in Hb. lia.
  - unfold AfterFunc, Until, Sub, Now. cbn. rewrite Hck. split; [|done].
    apply Forall_app. split; [done|]. apply Forall_singleton.
    split; cbn; [lia | discriminate].
Qed.

Lemma step_quiet_holds_until e0 e s s' :
  quiet e → holds_until e0 s → step e s = Some s' → holds_until e0 s'.
Proof.
  destruct s as [m w]. intros Hq (Hall & Hen) Hstep. cbn [fst snd] in *.
  destruct e as [d|c|sn|id|id]; simpl in Hstep; try done.
  - inversion Hstep; subst; clear Hstep. split; cbn.
    + eapply Forall_impl; [exact Hall|]. intros t [Hp Hr]. split; [done|].
      intros Hs. specialize (Hr Hs). lia.
    + intros. apply Hen. lia.
  - destruct sn; try done. cbn [watchStep] in Hstep. inversion Hstep; subst. done.
  - destruct (timers w !! id) as [t|] eqn:Hl; [|done].
    destruct (status t) eqn:Hst; try done.
    destruct (Z.leb_spec (when t) (Now w)) as [Hle|]; [|done].
    inversion Hstep; subst; clear Hstep. unfold set_status. rewrite Hl.
    split; cbn; [|done]. apply Forall_insert; [done|].
    pose proof (Forall_lookup_1 _ _ _ _ Hall Hl) as [Hp _]. specialize (Hp Hst).
    split; cbn; [discriminate|]. intros _. unfold Now in Hle. lia.
  - unfold status_of in Hstep. destruct (timers w !! id) as [t|] eqn:Hl; [|done].
    simpl in Hstep. destruct (status t) eqn:Hst; try done.
    inversion Hstep; subst; clear Hstep.
    pose proof (Forall_lookup_1 _ _ _ _ Hall Hl) as [_ Hr]. specialize (Hr Hst).
    unfold set_status. cbn. rewrite Hl. split; cbn; [|lia].
    apply Forall_insert; [done|]. split; cbn; discriminate.
Qed.

(** X20: when no timer function is in flight at the time of the call, a
    lease set by [expireAfter(c)] holds: as long as no further record update
    arrives, the lease stays enabled at every later point where the current
    time is before [max(c, guaranteedUntil)]. *)
Theorem lease_holds_until_expiry (g t0 : Time) (out : Stream) (tr0 tr : list Event)
    (c : Time) (m m' : Manager) (w w' : World) :
  run tr0 (NewManager g (startWorld t0 out)) = Some (m, w) →
  Forall (fun t => status t ≠ Running) (timers w) →
  Forall quiet tr →
  run tr (expireAfter c m w) = Some (m', w') →
  Now w' < Z.max c g →
  enabled m' = true.
Proof.
  intros Hrun0 Hnr Hq Hrun Hlt.
  pose proof (run_invariant single_pending step_single_pending tr0 _ _
                (NewManager_single_pending g t0 out) Hrun0) as Hsp.
  destruct (floor_holds_in_every_execution g t0 out tr0 m w Hrun0) as [Hg _].
  pose proof (expireAfter_holds_until c m w Hsp Hnr) as Hinit.
  rewrite effective_max, Hg in Hinit.
  assert (Hend : holds_until (Z.max c g) (m', w')).
  { clear Hlt. revert Hq Hrun Hinit. generalize (expireAfter c m w). clear.
    induction tr as [|e tr IH]; intros s Hq Hrun Hinit; cbn [run] in Hrun.
    - by inversion Hrun; subst.
    - destruct (step e s) as [s1|] eqn:He; [|done].
      apply Forall_cons in Hq. destruct Hq as [Hqe Hq].
      eapply IH; [exact Hq | exact Hrun |]. eapply step_quiet_holds_until; eauto. }
  destruct Hend as [_ Hen]. by apply Hen.
Qed.

(** * Instances *)

Lemma lease_runs_out_at_the_floor_witness :
  0 < 10 ∧ enabled (fst (NewManager 10 (startWorld 0 openStream))) = true.
Proof.
  assert (Hlt : 0 < 10) by lia. split; [exact Hlt|].
  exact (proj1 (lease_runs_out_at_the_floor 10 0 openStream Hlt)).
Defined.

Lemma at_most_one_pending_timer_witness :
  run [Tick 4] (NewManager 10 (startWorld 0 openStream)) = Some absent_state ∧
  timers (snd absent_state) !! 0%nat = Some (mkTimer 10 Pending None) ∧
  expireTimer (fst absent_state) = Some 0%nat.
Proof.
  assert (Hr : run [Tick 4] (NewManager 10 (startWorld 0 openStream)) = Some absent_state)
    by (vm_compute; reflexivity).
  assert (Hl : timers (snd absent_state) !! 0%nat = Some (mkTimer 10 Pending None))
    by reflexivity.
  split; [exact Hr|]. split; [exact Hl|].
  exact (proj2 (at_most_one_pending_timer 10 0 openStream [Tick 4] (fst absent_state)
                  (snd absent_state) 0 0 _ _ Hr Hl eq_refl Hl eq_refl)).
Defined.

Lemma enabled_lease_has_disable_ahead_witness :
  run [Tick 4] (NewManager 10 (startWorld 0 openStream)) = Some absent_state ∧
  enabled (fst absent_state) = true ∧
  ∃ id t, expireTimer (fst absent_state) = Some id ∧
          timers (snd absent_state) !! id = Some t ∧
          (status t = Pending ∨ status t = Running) ∧ 10 ≤ when t.
Proof.
  assert (Hr : run [Tick 4] (NewManager 10 (startWorld 0 openStream)) = Some absent_state)
    by (vm_compute; reflexivity).
  split; [exact Hr|]. split; [reflexivity|].
  exact (enabled_lease_has_disable_ahead 10 0 openStream [Tick 4] (fst absent_state)
           (snd absent_state) Hr eq_refl).
Defined.

Lemma quiet_events_never_enable_witness :
  Forall quiet quiet_trace ∧
  run quiet_trace (managerOff, startWorld 0 openStream) = Some quiet_end ∧
  enabled (fst quiet_end) = false.
Proof.
  assert (Hq : Forall quiet quiet_trace) by (repeat constructor).
  assert (Hr : run quiet_trace (managerOff, startWorld 0 openStream) = Some quiet_end)
    by (vm_compute; reflexivity).
  split; [exact Hq|]. split; [exact Hr|].
  exact (quiet_events_never_enable quiet_trace managerOff (fst quiet_end)
           (startWorld 0 openStream) (snd quiet_end) Hq Hr eq_refl).
Defined.

Lemma watchLoop_stops_at_first_end_witness :
  outcome IterFailed = Some (Some ErrSnapshot) ∧
  fst (watchLoop (map IterSnapshot [Absent] ++ IterFailed :: [IterSnapshot Malformed])
         managerOff (startWorld 0 openStream)) = Some (Some ErrSnapshot).
Proof.
  split; [reflexivity|].
  pose proof (proj2 (watchLoop_stops_at_first_end [Absent] IterFailed
                       [IterSnapshot Malformed] (Some ErrSnapshot) managerOff
                       (startWorld 0 openStream) eq_refl)) as Hw.
  rewrite Hw. reflexivity.
Defined.

Lemma guaranteed_window_ships_output_witness :
  run [Tick 4] (NewManager 10 (startWorld 0 openStream)) = Some absent_state ∧
  Now (snd absent_state) < 10 ∧
  remote (snd (Manager_Write oneByte (fst absent_state) (snd absent_state)))
    = remote (snd absent_state) ++ [rawEntry Info oneByte].
Proof.
  assert (Hr : run [Tick 4] (NewManager 10 (startWorld 0 openStream)) = Some absent_state)
    by (vm_compute; reflexivity).
  assert (Hlt : Now (snd absent_state) < 10) by (vm_compute; reflexivity).
  split; [exact Hr|]. split; [exact Hlt|].
  exact (proj1 (guaranteed_window_ships_output 10 0 openStream [Tick 4] (fst absent_state)
                  (snd absent_state) oneByte Hr Hlt)).
Defined.

Lemma disabled_lease_ships_errors_only_witness :
  enabled managerOff = false ∧
  remote (snd (Handle plainHandler errorRecord emptyMem managerOff (startWorld 0 openStream)))
    ≠ remote (snd (stdoutLogger plainHandler (handled plainHandler emptyMem errorRecord)
                     (startWorld 0 openStream))) ∧
  LevelError ≤ recLevel errorRecord.
Proof.
  assert (Hne : remote (snd (Handle plainHandler errorRecord emptyMem managerOff
                               (startWorld 0 openStream)))
                ≠ remote (snd (stdoutLogger plainHandler
                                 (handled plainHandler emptyMem errorRecord)
                                 (startWorld 0 openStream)))).
  { intros Heq. apply (f_equal length) in Heq. vm_compute in Heq. discriminate. }
  split; [reflexivity|]. split; [exact Hne|].
  exact (proj1 (disabled_lease_ships_errors_only plainHandler errorRecord emptyMem managerOff
                  (startWorld 0 openStream) eq_refl Hne)).
Defined.

Lemma local_output_ignores_the_lease_witness :
  stdoutLogger plainHandler = TextHandler messageFormat ∧
  stderr (snd (Handle plainHandler errorRecord emptyMem managerOff
                 (startWorld 0 openStream))) = [].
Proof.
  split; [reflexivity|].
  exact (proj2 (proj2 (local_output_ignores_the_lease plainHandler messageFormat errorRecord
                         emptyMem managerOff (startWorld 0 openStream) eq_refl))).
Defined.

Lemma guaranteed_window_ships_records_witness :
  run [Tick 4] (NewManager 10 (startWorld 0 openStream)) = Some absent_state ∧
  Now (snd absent_state) < 10 ∧
  fst (stdoutLogger plainHandler (handled plainHandler emptyMem errorRecord)
         (snd absent_state)) = None ∧
  fst (Handle plainHandler errorRecord emptyMem (fst absent_state) (snd absent_state)) = None.
Proof.
  assert (Hr : run [Tick 4] (NewManager 10 (startWorld 0 openStream)) = Some absent_state)
    by (vm_compute; reflexivity).
  assert (Hlt : Now (snd absent_state) < 10) by (vm_compute; reflexivity).
  assert (Hok : fst (stdoutLogger plainHandler (handled plainHandler emptyMem errorRecord)
                       (snd absent_state)) = None) by (vm_compute; reflexivity).
  split; [exact Hr|]. split; [exact Hlt|]. split; [exact Hok|].
  exact (proj1 (guaranteed_window_ships_records 10 0 openStream [Tick 4] (fst absent_state)
                  (snd absent_state) plainHandler errorRecord emptyMem Hr Hlt Hok)).
Defined.

Lemma generateLogsTurn_ships_witness :
  room (stdout (startWorld 0 openStream)) = None ∧
  remote (generateLogsTurn (SlogLogger messageFormat) emptyMem managerOff
            (startWorld 0 openStream))
    = remote (startWorld 0 openStream) ++ [slogEntry (errorDemoRecord 0)].
Proof.
  split; [reflexivity|].
  exact (proj2 (generateLogsTurn_ships messageFormat emptyMem managerOff
                  (startWorld 0 openStream) eq_refl)).
Defined.

Lemma lease_holds_until_expiry_witness :
  run [Tick 4] (NewManager 10 (startWorld 0 openStream)) = Some absent_state ∧
  Forall (fun t => status t ≠ Running) (timers (snd absent_state)) ∧
  Forall quiet [Tick 20] ∧
  run [Tick 20] (expireAfter 50 (fst absent_state) (snd absent_state)) = Some extended_end ∧
  Now (snd extended_end) < Z.max 50 10 ∧
  enabled (fst extended_end) = true.
Proof.
  assert (Hr : run [Tick 4] (NewManager 10 (startWorld 0 openStream)) = Some absent_state)
    by (vm_compute; reflexivity).
  assert (Hnr : Forall (fun t => status t ≠ Running) (timers (snd absent_state))).
  { cbn. repeat constructor. cbn. discriminate. }
  assert (Hq : Forall quiet [Tick 20]) by (repeat constructor).
  assert (Hr2 : run [Tick 20] (expireAfter 50 (fst absent_state) (snd absent_state))
                = Some extended_end) by (vm_compute; reflexivity).
  assert (Hlt : Now (snd extended_end) < Z.max 50 10) by (vm_compute; reflexivity).
  split_and!; [exact Hr | exact Hnr | exact Hq | exact Hr2 | exact Hlt |].
  exact (lease_holds_until_expiry 10 0 openStream [Tick 4] [Tick 20] 50 (fst absent_state)
           (fst extended_end) (snd absent_state) (snd extended_end) Hr Hnr Hq Hr2 Hlt).
Defined.
